(** * A shallow embedding of the [logger] package (Go)

    The development follows the layout of the repository:

    - the collaborators of the package -- the sentry-go hub, the standard
      streams, the caller's [io.Writer] -- are an environment of answers and
      a trace of calls; sequential code runs in a small state monad with
      the outcomes of a Go call (return, [os.Exit], panic, blocked);
    - [logger.go]: [Init], [output], [Close], the severity entry points and
      the in-package remote sink [snio];
    - [Tracker], [Remote], [Internal]: the two revisions of the asynchronous
      remote sink ([package remote] and [package internal]) as an
      interleaving semantics of goroutines over a [sync.WaitGroup];
    - the [Rinfo]/[Rinfof] helpers, in both revisions;
    - the properties, by component. *)

From Stdlib Require Import ZArith List String Ascii Bool Lia DecimalString.
Import ListNotations.

Local Open Scope string_scope.
Local Open Scope Z_scope.

(** [len(p)] of a Go byte slice or string. *)
Definition len (p : string) : Z := Z.of_nat (String.length p).

Definition newline : string := String (ascii_of_nat 10) EmptyString.

(** Go's [error] interface: [None] is [nil]. *)
Definition error := option string.

(* ------------------------------------------------------------------ *)
(** ** sentry-go: the part of the API the package uses *)

Module Sentry.

(** [sentry.Level] *)
Inductive Level := LevelDebug | LevelInfo | LevelWarning | LevelError | LevelFatal.

Definition Level_eqb (a b : Level) : bool :=
  match a, b with
  | LevelDebug, LevelDebug | LevelInfo, LevelInfo | LevelWarning, LevelWarning
  | LevelError, LevelError | LevelFatal, LevelFatal => true
  | _, _ => false
  end.

End Sentry.
Export Sentry.

(** [time.Second], in nanoseconds (the unit of [time.Duration]). *)
Definition time_Second : Z := 1000000000.

(** [const flashTimeout = 3 * time.Second] *)
Definition flashTimeout : Z := 3 * time_Second.

(* ------------------------------------------------------------------ *)
(** ** Writers, events and the world *)

(** The [io.Writer] values that reach the package: the nil interface, the
    two standard streams, a writer supplied by the caller (identified by
    [id]; [closer] tells whether it also satisfies [io.Closer]) and the
    package's own remote sink [&snio{level}]. *)
Inductive Writer :=
| nil_Writer
| os_Stdout
| os_Stderr
| UserWriter (id : nat) (closer : bool)
| Snio (level : Level).

(** Calls on the collaborators, in the order they happen. *)
Inductive Event :=
| EvLock                                  (* logLock.Lock() returned *)
| EvUnlock                                (* logLock.Unlock() *)
| EvWrite (w : Writer) (p : string)       (* the call w.Write(p) *)
| EvClose (w : Writer)                    (* the call w.Close() *)
| EvCapture (l : Level) (msg : string)    (* sentry.CaptureMessage(msg) under scope level l *)
| EvFlush (timeout : Z)                   (* sentry.Flush(timeout) *)
| EvExit (code : Z).                      (* os.Exit(code) *)

(** What the environment answers.  Every answer may depend on the history
    of calls, so stateful writers (a file that fails once closed, a disk
    that fills up) are covered. *)
Record Env := {
  (* result [(n, err)] of [w.Write(p)] for a stream or caller's writer *)
  env_write : list Event -> Writer -> string -> Z * error;
  (* result of [w.Close()] for a stream or caller's writer *)
  env_close : list Event -> Writer -> error;
  (* the header [log.Logger.formatHeader] renders after the prefix, for the
     given flag word and call depth: date, time and [file:line: ] *)
  env_header : list Event -> Z -> Z -> string;
  (* how [fmt] renders a closer and its error under [%v] *)
  env_show : Writer -> string
}.

(** [log.Logger]: destination, prefix and flags.  [io.MultiWriter(a...)]
    is kept as the list of its writers. *)
Inductive Out :=
| OutWriter (w : Writer)
| OutMulti (ws : list Writer).

Record GoLogger := log_New { lg_out : Out; lg_prefix : string; lg_flag : Z }.

(** [type Logger struct] *)
Record Logger := {
  infoLog : GoLogger;
  warningLog : GoLogger;
  errorLog : GoLogger;
  fatalLog : GoLogger;
  closers : list Writer;
  initialized : bool
}.

(** Pointers to [Logger] values are indices in the heap. *)
Definition ptr := nat.

Record World := {
  env : Env;
  hub_client : bool;        (* sentry.CurrentHub().Client() != nil *)
  lock_held : bool;         (* logLock *)
  heap : list Logger;
  defaultLogger : ptr;
  trace : list Event
}.

Definition emit (e : Event) (w : World) : World :=
  {| env := env w; hub_client := hub_client w; lock_held := lock_held w;
     heap := heap w; defaultLogger := defaultLogger w;
     trace := trace w ++ [e] |}.

Definition set_lock (b : bool) (w : World) : World :=
  {| env := env w; hub_client := hub_client w; lock_held := b;
     heap := heap w; defaultLogger := defaultLogger w; trace := trace w |}.

Definition set_heap (h : list Logger) (w : World) : World :=
  {| env := env w; hub_client := hub_client w; lock_held := lock_held w;
     heap := h; defaultLogger := defaultLogger w; trace := trace w |}.

Definition set_default (p : ptr) (w : World) : World :=
  {| env := env w; hub_client := hub_client w; lock_held := lock_held w;
     heap := heap w; defaultLogger := p; trace := trace w |}.

Definition set_client (b : bool) (w : World) : World :=
  {| env := env w; hub_client := b; lock_held := lock_held w;
     heap := heap w; defaultLogger := defaultLogger w; trace := trace w |}.

(* ------------------------------------------------------------------ *)
(** ** The monad of the sequential code *)

(** A call returns, ends the process ([os.Exit]), panics, or blocks for
    ever (locking a mutex that is held). *)
Inductive Outcome (A : Type) :=
| Ret (a : A)
| Exited (code : Z)
| Panicked (msg : string)
| Blocked.
Arguments Ret {A} a.
Arguments Exited {A} code.
Arguments Panicked {A} msg.
Arguments Blocked {A}.

(** A computation over a state [S]. *)
Definition ST (S A : Type) := S -> Outcome A * S.

Definition ret {S A} (a : A) : ST S A := fun w => (Ret a, w).

Definition bind {S A B} (m : ST S A) (k : A -> ST S B) : ST S B :=
  fun w =>
    match m w with
    | (Ret a, w') => k a w'
    | (Exited c, w') => (Exited c, w')
    | (Panicked s, w') => (Panicked s, w')
    | (Blocked, w') => (Blocked, w')
    end.

Notation "x <- m ;; k" := (bind m (fun x => k))
  (at level 61, m at next level, right associativity).
Notation "m ;;; k" := (bind m (fun _ => k))
  (at level 61, right associativity).

Definition panic {S A} (msg : string) : ST S A := fun w => (Panicked msg, w).
Definition get {S A} (f : S -> A) : ST S A := fun w => (Ret (f w), w).
Definition modify {S} (f : S -> S) : ST S unit := fun w => (Ret tt, f w).

(** The sequential code of [logger.go] runs over the [World]. *)
Definition M (A : Type) := ST World A.

Definition tell (e : Event) : M unit := modify (emit e).


(** [logLock.Lock()] *)
Definition Lock : M unit :=
  fun w => if lock_held w then (Blocked, w)
           else (Ret tt, emit EvLock (set_lock true w)).

(** [logLock.Unlock()] *)
Definition Unlock : M unit :=
  fun w => if lock_held w then (Ret tt, emit EvUnlock (set_lock false w))
           else (Panicked "sync: unlock of unlocked mutex", w).

(** [logLock.Lock(); defer logLock.Unlock(); body]: the deferred unlock
    runs when the body returns and when it panics. *)
Definition locked {A} (body : M A) : M A :=
  fun w =>
    match Lock w with
    | (Ret _, w1) =>
        match body w1 with
        | (Ret a, w2) => (_ <- Unlock ;; ret a) w2
        | (Panicked s, w2) => (_ <- Unlock ;; panic s) w2
        | r => r
        end
    | (Exited c, w1) => (Exited c, w1)
    | (Panicked s, w1) => (Panicked s, w1)
    | (Blocked, w1) => (Blocked, w1)
    end.

(* ------------------------------------------------------------------ *)
(** ** logger.go *)

(** [type severity int] and its four levels. *)
Definition severity := Z.
Definition sInfo : severity := 0.
Definition sWarning : severity := 1.
Definition sError : severity := 2.
Definition sFatal : severity := 3.

Definition tagInfo : string := "INFO : ".
Definition tagWarning : string := "WARN : ".
Definition tagError : string := "ERROR: ".
Definition tagFatal : string := "FATAL: ".

(** [log.Ldate | log.Lmicroseconds | log.Lshortfile] *)
Definition log_Ldate : Z := 1.
Definition log_Lmicroseconds : Z := 4.
Definition log_Lshortfile : Z := 16.
Definition flags : Z := Z.lor log_Ldate (Z.lor log_Lmicroseconds log_Lshortfile).

Definition initText : string := "ERROR: Logging before logger.Init." ++ newline.

(** [io.ErrShortWrite] *)
Definition ErrShortWrite : string := "short write".

Definition sentryFatalLog : Writer := Snio LevelFatal.
Definition sentryErrorLog : Writer := Snio LevelError.
Definition sentryWarnLog : Writer := Snio LevelWarning.
Definition sentryInfoLog : Writer := Snio LevelInfo.

(** [func sentryOutput(p []byte, level sentry.Level)] *)
Definition sentryOutput (p : string) (level : Level) : M unit :=
  tell (EvCapture level p) ;;;
  if Level_eqb level LevelFatal then tell (EvFlush flashTimeout) else ret tt.

(** [func (sn *snio) Write(p []byte) (n int, err error)] *)
Definition snio_Write (level : Level) (p : string) : M (Z * error) :=
  connected <- get hub_client ;;
  (if connected then sentryOutput p level else ret tt) ;;;
  ret (0, None).

(** [func (sn *snio) Close() error] *)
Definition snio_Close (level : Level) : M error :=
  tell (EvFlush flashTimeout) ;;;
  ret None.

(** [w.Write(p)] through the [io.Writer] interface: the call is recorded,
    then the writer does its work. *)
Definition Writer_Write (w : Writer) (p : string) : M (Z * error) :=
  match w with
  | nil_Writer => panic "invalid memory address or nil pointer dereference"
  | Snio level => tell (EvWrite w p) ;;; snio_Write level p
  | _ => r <- get (fun s => env_write (env s) (trace s) w p) ;;
         tell (EvWrite w p) ;;;
         ret r
  end.

(** Whether a writer satisfies [io.Closer] (and is not nil). *)
Definition is_Closer (w : Writer) : bool :=
  match w with
  | nil_Writer => false
  | os_Stdout | os_Stderr => true
  | UserWriter _ closer => closer
  | Snio _ => true
  end.

(** [c.Close()] through the [io.Closer] interface. *)
Definition Closer_Close (c : Writer) : M error :=
  match c with
  | nil_Writer => panic "invalid memory address or nil pointer dereference"
  | Snio level => tell (EvClose c) ;;; snio_Close level
  | _ => r <- get (fun s => env_close (env s) (trace s) c) ;;
         tell (EvClose c) ;;;
         ret r
  end.

(** [io.MultiWriter(ws...).Write(p)]: the writers in order, stopping at the
    first error or short count. *)
Fixpoint multiWriter_Write (ws : list Writer) (p : string) : M (Z * error) :=
  match ws with
  | [] => ret (len p, None)
  | w :: ws' =>
      r <- Writer_Write w p ;;
      match r with
      | (n, Some e) => ret (n, Some e)
      | (n, None) =>
          if n =? len p then multiWriter_Write ws' p
          else ret (n, Some ErrShortWrite)
      end
  end.

Definition Out_Write (o : Out) (p : string) : M (Z * error) :=
  match o with
  | OutWriter w => Writer_Write w p
  | OutMulti ws => multiWriter_Write ws p
  end.

(** Whether [s] ends in a newline ([len(s) == 0 || s[len(s)-1] != '\n']
    is its negation). *)
Fixpoint ends_with_newline (s : string) : bool :=
  match s with
  | EmptyString => false
  | String c EmptyString => Ascii.eqb c (ascii_of_nat 10)
  | String _ rest => ends_with_newline rest
  end.

(** The bytes [log.Logger.Output] hands to its writer: prefix, header, the
    text, and a newline when the text does not end in one. *)
Definition log_record (l : GoLogger) (hdr : string) (s : string) : string :=
  lg_prefix l ++ hdr ++ s ++ (if ends_with_newline s then "" else newline).

(** [func (l *log.Logger) Output(calldepth int, s string) error] *)
Definition log_Output (l : GoLogger) (calldepth : Z) (s : string) : M error :=
  hdr <- get (fun w => env_header (env w) (trace w) (lg_flag l) calldepth) ;;
  r <- Out_Write (lg_out l) (log_record l hdr s) ;;
  ret (snd r).

(** Dereferencing a [*Logger]. *)
Definition deref (l : ptr) : M Logger :=
  fun w => match nth_error (heap w) l with
           | Some v => (Ret v, w)
           | None => (Panicked "invalid memory address or nil pointer dereference", w)
           end.

(** [&v] for a value that escapes: a fresh cell. *)
Definition alloc (v : Logger) : M ptr :=
  fun w => (Ret (List.length (heap w)), set_heap (heap w ++ [v]) w).

(** The [Logger] value [initialize] stores. *)
Definition bootstrap_logger : Logger :=
  {| infoLog := log_New (OutWriter os_Stderr) (initText ++ tagInfo) flags;
     warningLog := log_New (OutWriter os_Stderr) (initText ++ tagWarning) flags;
     errorLog := log_New (OutWriter os_Stderr) (initText ++ tagError) flags;
     fatalLog := log_New (OutWriter os_Stderr) (initText ++ tagFatal) flags;
     closers := [];
     initialized := false |}.

(** [func initialize()] *)
Definition initialize : M unit :=
  p <- alloc bootstrap_logger ;;
  modify (set_default p).

(** The closure [makeLog] of [Init]. *)
Definition makeLog (verbose : bool) (logFile : Writer)
    (level : severity) (w : list Writer) : GoLogger :=
  let a := match logFile with nil_Writer => [] | _ => [logFile] end in
  let '(v, tag) :=
    if level =? sInfo then (os_Stdout, tagInfo)
    else if level =? sWarning then (os_Stdout, tagWarning)
    else if level =? sError then (os_Stderr, tagError)
    else if level =? sFatal then (os_Stderr, tagFatal)
    else (nil_Writer, "") in
  let a := if verbose then (a ++ [v])%list else a in
  let a := (a ++ w)%list in
  log_New (OutMulti a) tag flags.

(** The [Logger] value [Init] builds before it takes the lock. *)
Definition Init_logger (verbose : bool) (logFile : Writer) : Logger :=
  let closers0 := [sentryFatalLog] in
  let closers1 :=
    match logFile with
    | nil_Writer => closers0
    | _ => if is_Closer logFile then (closers0 ++ [logFile])%list else closers0
    end in
  {| infoLog := makeLog verbose logFile sInfo [sentryInfoLog];
     warningLog := makeLog verbose logFile sWarning [sentryWarnLog];
     errorLog := makeLog verbose logFile sError [sentryErrorLog];
     fatalLog := makeLog verbose logFile sFatal [sentryFatalLog];
     closers := closers1;
     initialized := true |}.

(** [func Init(name string, verbose, _ bool, logFile io.Writer) *Logger] *)
Definition Init (name : string) (verbose : bool) (_ : bool) (logFile : Writer) : M ptr :=
  l <- alloc (Init_logger verbose logFile) ;;
  locked (d <- get defaultLogger ;;
          dl <- deref d ;;
          (if negb (initialized dl) then modify (set_default l) else ret tt) ;;;
          ret l).

(** [func (l *Logger) output(s severity, depth int, txt string)] *)
Definition Logger_output (l : ptr) (s : severity) (depth : Z) (txt : string) : M unit :=
  locked (lg <- deref l ;;
          if s =? sInfo then _ <- log_Output (infoLog lg) (3 + depth) txt ;; ret tt
          else if s =? sWarning then _ <- log_Output (warningLog lg) (3 + depth) txt ;; ret tt
          else if s =? sError then _ <- log_Output (errorLog lg) (3 + depth) txt ;; ret tt
          else if s =? sFatal then _ <- log_Output (fatalLog lg) (3 + depth) txt ;; ret tt
          else panic "unrecognized severity").

(** The text [Close] prints for a closer that failed. *)
Definition close_failure_text (shown : string) (err : string) : string :=
  "Failed to close log " ++ shown ++ ": " ++ err ++ newline.

(** The loop [for _, c := range l.closers] of [Close]. *)
Fixpoint close_all (cs : list Writer) : M unit :=
  match cs with
  | [] => ret tt
  | c :: cs' =>
      err <- Closer_Close c ;;
      match err with
      | Some e =>
          shown <- get (fun w => env_show (env w) c) ;;
          _ <- Writer_Write os_Stderr (close_failure_text shown e) ;;
          close_all cs'
      | None => close_all cs'
      end
  end.

(** [func (l *Logger) Close()] *)
Definition Logger_Close (l : ptr) : M unit :=
  locked (lg <- deref l ;;
          if negb (initialized lg) then ret tt
          else close_all (closers lg)).

(** [func Close()] *)
Definition Close : M unit :=
  d <- get defaultLogger ;; Logger_Close d.

(** The severity entry points.  [fmt] is a collaborator: its three
    formatters are parameters. *)
Section EntryPoints.

Variable Arg : Type.
Variable fmt_Sprint : list Arg -> string.
Variable fmt_Sprintln : list Arg -> string.
Variable fmt_Sprintf : string -> list Arg -> string.

(** Methods of [*Logger]. *)
Definition Logger_Info (l : ptr) (v : list Arg) : M unit :=
  Logger_output l sInfo 0 (fmt_Sprint v).
Definition Logger_InfoDepth (l : ptr) (depth : Z) (v : list Arg) : M unit :=
  Logger_output l sInfo depth (fmt_Sprint v).
Definition Logger_Infoln (l : ptr) (v : list Arg) : M unit :=
  Logger_output l sInfo 0 (fmt_Sprintln v).
Definition Logger_Infof (l : ptr) (format : string) (v : list Arg) : M unit :=
  Logger_output l sInfo 0 (fmt_Sprintf format v).

Definition Logger_Warning (l : ptr) (v : list Arg) : M unit :=
  Logger_output l sWarning 0 (fmt_Sprint v).
Definition Logger_WarningDepth (l : ptr) (depth : Z) (v : list Arg) : M unit :=
  Logger_output l sWarning depth (fmt_Sprint v).
Definition Logger_Warningln (l : ptr) (v : list Arg) : M unit :=
  Logger_output l sWarning 0 (fmt_Sprintln v).
Definition Logger_Warningf (l : ptr) (format : string) (v : list Arg) : M unit :=
  Logger_output l sWarning 0 (fmt_Sprintf format v).

Definition Logger_Error (l : ptr) (v : list Arg) : M unit :=
  Logger_output l sError 0 (fmt_Sprint v).
Definition Logger_ErrorDepth (l : ptr) (depth : Z) (v : list Arg) : M unit :=
  Logger_output l sError depth (fmt_Sprint v).
Definition Logger_Errorln (l : ptr) (v : list Arg) : M unit :=
  Logger_output l sError 0 (fmt_Sprintln v).
Definition Logger_Errorf (l : ptr) (format : string) (v : list Arg) : M unit :=
  Logger_output l sError 0 (fmt_Sprintf format v).


(** Package functions, on [defaultLogger]. *)
Definition Info (v : list Arg) : M unit :=
  d <- get defaultLogger ;; Logger_output d sInfo 0 (fmt_Sprint v).
Definition InfoDepth (depth : Z) (v : list Arg) : M unit :=
  d <- get defaultLogger ;; Logger_output d sInfo depth (fmt_Sprint v).
Definition Infoln (v : list Arg) : M unit :=
  d <- get defaultLogger ;; Logger_output d sInfo 0 (fmt_Sprintln v).
Definition Infof (format : string) (v : list Arg) : M unit :=
  d <- get defaultLogger ;; Logger_output d sInfo 0 (fmt_Sprintf format v).

Definition Warning (v : list Arg) : M unit :=
  d <- get defaultLogger ;; Logger_output d sWarning 0 (fmt_Sprint v).
Definition WarningDepth (depth : Z) (v : list Arg) : M unit :=
  d <- get defaultLogger ;; Logger_output d sWarning depth (fmt_Sprint v).
Definition Warningln (v : list Arg) : M unit :=
  d <- get defaultLogger ;; Logger_output d sWarning 0 (fmt_Sprintln v).
Definition Warningf (format : string) (v : list Arg) : M unit :=
  d <- get defaultLogger ;; Logger_output d sWarning 0 (fmt_Sprintf format v).

Definition Error (v : list Arg) : M unit :=
  d <- get defaultLogger ;; Logger_output d sError 0 (fmt_Sprint v).
Definition ErrorDepth (depth : Z) (v : list Arg) : M unit :=
  d <- get defaultLogger ;; Logger_output d sError depth (fmt_Sprint v).
Definition Errorln (v : list Arg) : M unit :=
  d <- get defaultLogger ;; Logger_output d sError 0 (fmt_Sprintln v).
Definition Errorf (format : string) (v : list Arg) : M unit :=
  d <- get defaultLogger ;; Logger_output d sError 0 (fmt_Sprintf format v).


End EntryPoints.

(* ------------------------------------------------------------------ *)
(** ** Asynchronous delivery: goroutines over a [sync.WaitGroup] *)

Module Tracker.

(** The statements a delivery goroutine is made of. *)
Inductive Instr :=
| ICapture (level : Level) (msg : string)  (* sentry.WithScope: SetLevel(level); CaptureMessage(msg) *)
| IFlush (timeout : Z)                     (* sentry.Flush(timeout) *)
| IDone.                                   (* wg.Done() *)

(** What reached the backend: a capture, with whether sentry-go accepted
    it ([CaptureMessage] returns a nil [*EventID] when it did not), or a
    flush. *)
Inductive Delivery :=
| Captured (level : Level) (msg : string) (ok : bool)
| Flushed (timeout : Z).

(** A goroutine: the statements it still has to run.  [dones] is a ghost
    counter of the [wg.Done()] calls it has made. *)
Record Goroutine := { pending : list Instr; dones : nat }.

(** [var connected], [var wg sync.WaitGroup], the goroutines started so
    far, and what the backend has seen. *)
Record State := {
  connected : bool;
  wg : Z;
  goroutines : list Goroutine;
  deliveries : list Delivery
}.

Definition T (A : Type) := ST State A.

Definition set_connected (b : bool) (st : State) : State :=
  {| connected := b; wg := wg st; goroutines := goroutines st;
     deliveries := deliveries st |}.

Definition set_wg (n : Z) (st : State) : State :=
  {| connected := connected st; wg := n; goroutines := goroutines st;
     deliveries := deliveries st |}.

Definition set_goroutines (gs : list Goroutine) (st : State) : State :=
  {| connected := connected st; wg := wg st; goroutines := gs;
     deliveries := deliveries st |}.

Definition deliver (d : Delivery) (st : State) : State :=
  {| connected := connected st; wg := wg st; goroutines := goroutines st;
     deliveries := (deliveries st ++ [d])%list |}.

(** The state at package load: [connected = false], a zero WaitGroup. *)
Definition init_state : State :=
  {| connected := false; wg := 0; goroutines := []; deliveries := [] |}.

(** [wg.Add(delta)]: panics when the counter would go negative. *)
Definition wg_Add (delta : Z) : T unit :=
  fun st =>
    if wg st + delta <? 0
    then (Panicked "sync: negative WaitGroup counter", st)
    else (Ret tt, set_wg (wg st + delta) st).

(** [wg.Done()] is [wg.Add(-1)]. *)
Definition wg_Done : T unit := wg_Add (-1).

(** [wg.Wait()]: returns when the counter is zero, blocks otherwise. *)
Definition wg_Wait : T unit :=
  fun st => if wg st =? 0 then (Ret tt, st) else (Blocked, st).

(** [go func() { body }()] *)
Definition go (body : list Instr) : T unit :=
  modify (fun st =>
    set_goroutines (goroutines st ++ [{| pending := body; dones := 0 |}])%list st).

Definition is_Done (i : Instr) : bool :=
  match i with IDone => true | _ => false end.

(** One statement of a goroutine.  [ok] is the backend's answer to a
    capture. *)
Definition exec_instr (i : Instr) (ok : bool) : T unit :=
  match i with
  | ICapture level msg => modify (deliver (Captured level msg ok))
  | IFlush timeout => modify (deliver (Flushed timeout))
  | IDone => wg_Done
  end.

Fixpoint update_nth {A} (n : nat) (x : A) (l : list A) : list A :=
  match l, n with
  | [], _ => []
  | _ :: l', O => x :: l'
  | y :: l', S n' => y :: update_nth n' x l'
  end.

(** The scheduler runs the next statement of goroutine [i]; a goroutine
    that has finished (or does not exist) has nothing to run. *)
Definition step (i : nat) (ok : bool) : T unit :=
  fun st =>
    match nth_error (goroutines st) i with
    | Some g =>
        match pending g with
        | ins :: rest =>
            match exec_instr ins ok st with
            | (Ret _, st') =>
                (Ret tt,
                 set_goroutines
                   (update_nth i {| pending := rest;
                                    dones := dones g + (if is_Done ins then 1 else 0) |}
                               (goroutines st')) st')
            | r => r
            end
        | [] => (Ret tt, st)
        end
    | None => (Ret tt, st)
    end.

(** Statements still to run, over all goroutines. *)
Definition work (st : State) : nat :=
  list_sum (map (fun g => List.length (pending g)) (goroutines st)).

(** Index of the first goroutine that has a statement to run. *)
Fixpoint first_runnable (gs : list Goroutine) : option nat :=
  match gs with
  | [] => None
  | g :: gs' =>
      match pending g with
      | [] => option_map S (first_runnable gs')
      | _ :: _ => Some O
      end
  end.

(** Let the goroutines run until none has a statement left: the first
    runnable one at each turn; [oks i] is the backend's answer to the
    capture of goroutine [i]. *)
Fixpoint drain (oks : nat -> bool) (fuel : nat) : T unit :=
  match fuel with
  | O => ret tt
  | S fuel' =>
      gs <- get goroutines ;;
      match first_runnable gs with
      | None => ret tt
      | Some i => step i (oks i) ;;; drain oks fuel'
      end
  end.

(** Goroutines that have not called [wg.Done()] yet. *)
Definition owed (g : Goroutine) : nat :=
  List.length (filter is_Done (pending g)).

Definition in_flight (st : State) : nat :=
  list_sum (map owed (goroutines st)).

End Tracker.

(** [package remote] (the first revision of the sink). *)
Module Remote.
Import Tracker.

(** [type snio struct { isErrLog bool }] *)
Record snio := { isErrLog : bool }.

Definition ErrorLog : snio := {| isErrLog := true |}.
Definition WarnLog : snio := {| isErrLog := false |}.

(** [func ConnectSentry(dsn string) error]; [sentry_Init] is the answer
    of [sentry.Init] for the options built from [dsn]. *)
Definition ConnectSentry (sentry_Init : string -> error) (dsn : string) : T error :=
  match sentry_Init dsn with
  | Some err => ret (Some err)
  | None => modify (set_connected true) ;;; ret None
  end.

(** The body of the goroutine of [Write]. *)
Definition Write_body (sn : snio) (p : string) : list Instr :=
  [ ICapture (if isErrLog sn then LevelError else LevelWarning) p;
    IDone ].

(** [func (sn *snio) Write(p []byte) (n int, err error)] *)
Definition Write (sn : snio) (p : string) : T (Z * error) :=
  c <- get connected ;;
  (if c then wg_Add 1 ;;; go (Write_body sn p) else ret tt) ;;;
  ret (0, None).

End Remote.

(** [package internal] (the second revision). *)
Module Internal.
Import Tracker.

(** [type snio struct { level sentry.Level }] *)
Record snio := { level : Level }.

Definition ErrorLog : snio := {| level := LevelError |}.
Definition WarnLog : snio := {| level := LevelWarning |}.

(** [func ConnectSentry(dsn string) error] *)
Definition ConnectSentry (sentry_Init : string -> error) (dsn : string) : T error :=
  match sentry_Init dsn with
  | Some err => ret (Some err)
  | None => modify (set_connected true) ;;; ret None
  end.

(** The body of the goroutine of [Write]. *)
Definition Write_body (sn : snio) (p : string) : list Instr :=
  [ ICapture (level sn) p; IFlush flashTimeout; IDone ].

(** [func (sn *snio) Write(p []byte) (n int, err error)] *)
Definition Write (sn : snio) (p : string) : T (Z * error) :=
  c <- get connected ;;
  (if c then wg_Add 1 ;;; go (Write_body sn p) else ret tt) ;;;
  ret (0, None).

(** [func Wait()] *)
Definition Wait : T unit := wg_Wait.

(** The body of the goroutine of [Info]. *)
Definition Info_body (text : string) : list Instr :=
  [ ICapture LevelInfo text; IFlush flashTimeout; IDone ].

(** [func Info(text string)]: while the caller is parked in [Wait()] the
    goroutines run ([drain]); then [Wait()] returns. *)
Definition Info (oks : nat -> bool) (text : string) : T unit :=
  c <- get connected ;;
  if c then
    wg_Add 1 ;;;
    go (Info_body text) ;;;
    (n <- get work ;; drain oks n) ;;;
    Wait
  else ret tt.

End Internal.

(** A run of the asynchronous sinks: calls of [Write] by the program,
    and of [ConnectSentry], interleaved with steps of the goroutines chosen
    by the scheduler. *)
Inductive Action :=
| ARemoteWrite (sn : Remote.snio) (p : string)
| AInternalWrite (sn : Internal.snio) (p : string)
| AConnect (sentry_Init : string -> error) (dsn : string)
| AStep (i : nat) (ok : bool).

Definition act (a : Action) : Tracker.T unit :=
  match a with
  | AConnect sentry_Init dsn => _ <- Internal.ConnectSentry sentry_Init dsn ;; ret tt
  | ARemoteWrite sn p => _ <- Remote.Write sn p ;; ret tt
  | AInternalWrite sn p => _ <- Internal.Write sn p ;; ret tt
  | AStep i ok => Tracker.step i ok
  end.

Fixpoint run (acts : list Action) : Tracker.T unit :=
  match acts with
  | [] => ret tt
  | a :: acts' => act a ;;; run acts'
  end.

Definition is_connect (a : Action) : bool :=
  match a with AConnect _ _ => true | _ => false end.

(** The state after a successful [ConnectSentry]. *)
Definition connected_state : Tracker.State :=
  Tracker.set_connected true Tracker.init_state.

(* ------------------------------------------------------------------ *)
(** ** The [Rinfo] helpers *)

(** The helpers touch both the logger and the asynchronous sink. *)
Definition App : Type := World * Tracker.State.

Definition in_logger {A} (m : M A) : ST App A :=
  fun s =>
    match m (fst s) with
    | (Ret a, w) => (Ret a, (w, snd s))
    | (Exited c, w) => (Exited c, (w, snd s))
    | (Panicked e, w) => (Panicked e, (w, snd s))
    | (Blocked, w) => (Blocked, (w, snd s))
    end.

Definition in_tracker {A} (m : Tracker.T A) : ST App A :=
  fun s =>
    match m (snd s) with
    | (Ret a, t) => (Ret a, (fst s, t))
    | (Exited c, t) => (Exited c, (fst s, t))
    | (Panicked e, t) => (Panicked e, (fst s, t))
    | (Blocked, t) => (Blocked, (fst s, t))
    end.

Section Helpers.

Variable Arg : Type.
Variable fmt_Sprint : list Arg -> string.
Variable fmt_Sprintf : string -> list Arg -> string.
(* a Go string passed as an [interface{}] operand *)
Variable arg_of_string : string -> Arg.
(* the backend's answers to the captures, by goroutine *)
Variable oks : nat -> bool.

(** [func ConnectSentry(dsn string) error] of package [logger]: a
    successful [sentry.Init] also binds a client to the current hub. *)
Definition ConnectSentry (sentry_Init : string -> error) (dsn : string) : ST App error :=
  r <- in_tracker (Internal.ConnectSentry sentry_Init dsn) ;;
  match r with
  | None => in_logger (modify (set_client true)) ;;; ret None
  | Some e => ret (Some e)
  end.

(** The revision that imports [github.com/google/logger/internal]. *)
Definition Rinfo_1 (a : string) : ST App unit :=
  in_logger (Info Arg fmt_Sprint [arg_of_string a]) ;;;
  in_tracker (Internal.Info oks a).

Definition Rinfof_1 (a : string) (b : list Arg) : ST App unit :=
  Rinfo_1 (fmt_Sprintf a b).

(** The revision that imports [github.com/sudachen/logger/internal]. *)
Definition Rinfo (a : string) : ST App unit :=
  in_logger (d <- get defaultLogger ;; Logger_output d sInfo 0 a) ;;;
  in_tracker (Internal.Info oks a).

Definition Rinfof (a : string) (b : list Arg) : ST App unit :=
  let t := fmt_Sprintf a b in
  in_logger (d <- get defaultLogger ;; Logger_output d sInfo 0 t) ;;;
  in_tracker (Internal.Info oks a).

End Helpers.

(* ------------------------------------------------------------------ *)
(** ** A fragment of [fmt], to run the code on concrete calls *)

Module Fmt.

(** Operands: Go ints and strings. *)
Inductive Arg := AInt (n : Z) | AStr (s : string).

Definition show (a : Arg) : string :=
  match a with
  | AInt n => NilZero.string_of_int (Z.to_int n)
  | AStr s => s
  end.

Definition is_string (a : Arg) : bool :=
  match a with AStr _ => true | AInt _ => false end.

(** [fmt.Sprint]: a space between operands when neither is a string. *)
Fixpoint Sprint (v : list Arg) : string :=
  match v with
  | [] => ""
  | [a] => show a
  | a :: ((b :: _) as rest) =>
      show a ++ (if is_string a || is_string b then "" else " ") ++ Sprint rest
  end.

(** [fmt.Sprintln]: a space between operands, a newline at the end. *)
Fixpoint Sprintln (v : list Arg) : string :=
  match v with
  | [] => newline
  | [a] => show a ++ newline
  | a :: rest => show a ++ " " ++ Sprintln rest
  end.

(** [fmt.Sprintf] on the formats of the fragment: the verbs [%d] on an
    int, [%s] on a string and [%v], each taking the next operand, and
    [%%]; as many operands as verbs, or fewer.  (Other verbs are rendered
    like [%v] and spare operands are dropped, which is not what Go prints:
    such calls are outside the fragment.) *)
Fixpoint Sprintf (format : string) (v : list Arg) : string :=
  match format with
  | EmptyString => ""
  | String "%" (String "%" rest) => String "%" (Sprintf rest v)
  | String "%" (String c rest) =>
      match v with
      | a :: v' => show a ++ Sprintf rest v'
      | [] => "%!" ++ String c "(MISSING)" ++ Sprintf rest []
      end
  | String c rest => String c (Sprintf rest v)
  end.

End Fmt.

(** An environment whose streams and writers accept every write and
    close without error; the header is a fixed date, time and frame. *)
Definition quiet_env : Env :=
  {| env_write := fun _ _ p => (len p, None);
     env_close := fun _ _ => None;
     env_header := fun _ _ _ => "2016/02/01 10:00:00.000000 main.go:10: ";
     env_show := fun _ => "writer" |}.

(** The world when the package has been loaded: [init()] has run
    [initialize()]. *)
Definition empty_world (e : Env) : World :=
  {| env := e; hub_client := false; lock_held := false; heap := [];
     defaultLogger := O; trace := [] |}.

Definition boot_world (e : Env) : World := snd (initialize (empty_world e)).

(* ------------------------------------------------------------------ *)
(** ** Vocabulary of the statements *)

(** The world after the calls [evs] have been added to its trace. *)
Definition add_events (evs : list Event) (w : World) : World :=
  {| env := env w; hub_client := hub_client w; lock_held := lock_held w;
     heap := heap w; defaultLogger := defaultLogger w;
     trace := (trace w ++ evs)%list |}.

(** [m] returns [a] from [w], and all it does is to make the calls [evs]. *)
Definition yields {A} (m : M A) (w : World) (a : A) (evs : list Event) : Prop :=
  m w = (Ret a, add_events evs w).

Definition is_Write_call (e : Event) : bool :=
  match e with EvWrite _ _ => true | _ => false end.

Definition is_Close_call (e : Event) : bool :=
  match e with EvClose _ => true | _ => false end.

Definition is_lock_event (e : Event) : bool :=
  match e with EvLock | EvUnlock => true | _ => false end.

(** Remote delivery: a capture or a flush of the backend. *)
Definition is_remote_event (e : Event) : bool :=
  match e with EvCapture _ _ | EvFlush _ => true | _ => false end.

Definition write_calls (evs : list Event) : list Event := filter is_Write_call evs.
Definition close_calls (evs : list Event) : list Event := filter is_Close_call evs.


(** The four severities. *)
Definition is_severity (s : severity) : Prop :=
  s = sInfo \/ s = sWarning \/ s = sError \/ s = sFatal.

(** The sink [output] selects for a severity, and the level its remote
    writer reports at. *)
Definition sink_of (lg : Logger) (s : severity) : GoLogger :=
  if s =? sInfo then infoLog lg
  else if s =? sWarning then warningLog lg
  else if s =? sError then errorLog lg
  else fatalLog lg.

Definition sentry_level (s : severity) : Level :=
  if s =? sInfo then LevelInfo
  else if s =? sWarning then LevelWarning
  else if s =? sError then LevelError
  else LevelFatal.

(** The writers behind a sink. *)
Definition writers_of (o : Out) : list Writer :=
  match o with OutWriter w => [w] | OutMulti ws => ws end.

(** The loggers the package builds. *)
Inductive built : Logger -> Prop :=
| built_bootstrap : built bootstrap_logger
| built_Init verbose logFile : built (Init_logger verbose logFile).


(** A sequence of [Init] calls, with the pointers they return. *)
Fixpoint Init_calls (calls : list (string * bool * bool * Writer)) : M (list ptr) :=
  match calls with
  | [] => ret []
  | (name, verbose, x, logFile) :: rest =>
      l <- Init name verbose x logFile ;;
      ls <- Init_calls rest ;;
      ret (l :: ls)
  end.

(** What the remote sink does with a record when a client is bound to the
    hub ([client]): the body of [sentryOutput]. *)
Definition snio_events (client : bool) (level : Level) (p : string) : list Event :=
  if client
  then EvCapture level p ::
       (if Level_eqb level LevelFatal then [EvFlush flashTimeout] else [])
  else [].

(** One [Write] call on a writer: the call, and what follows from it. *)
Definition call_events (client : bool) (p : string) (wr : Writer) : list Event :=
  EvWrite wr p :: match wr with Snio level => snio_events client level p | _ => [] end.

(** What the call answers. *)
Definition write_result (e : Env) (hist : list Event) (wr : Writer) (p : string) : Z * error :=
  match wr with
  | Snio _ => (0, None)
  | _ => env_write e hist wr p
  end.

(** How many of its writers an [io.MultiWriter] calls for one record: it
    goes on to the next one only after a full write without error. *)
Fixpoint reached (e : Env) (client : bool) (hist : list Event)
    (ws : list Writer) (p : string) : nat :=
  match ws with
  | [] => O
  | wr :: ws' =>
      S (match write_result e hist wr p with
         | (n, None) =>
             if n =? len p
             then reached e client (hist ++ call_events client p wr)%list ws' p
             else O
         | (_, Some _) => O
         end)
  end.

(** The calls one record makes on a sink's writers. *)
Definition sink_events (e : Env) (client : bool) (hist : list Event)
    (ws : list Writer) (p : string) : list Event :=
  flat_map (call_events client p) (firstn (reached e client hist ws p) ws).

(** No nil interface among the writers. *)
Definition no_nil (ws : list Writer) : Prop :=
  Forall (fun wr => wr <> nil_Writer) ws.

(** The record an [output] call that starts in [w] hands to its sink, and
    the calls it makes on the sink's writers (under the lock, hence after
    [EvLock]). *)
Definition output_record (w : World) (lg : Logger) (s : severity)
    (depth : Z) (txt : string) : string :=
  log_record (sink_of lg s)
    (env_header (env w) (trace w ++ [EvLock])%list (lg_flag (sink_of lg s)) (3 + depth))
    txt.

Definition output_events (w : World) (lg : Logger) (s : severity)
    (depth : Z) (txt : string) : list Event :=
  sink_events (env w) (hub_client w) (trace w ++ [EvLock])%list
    (writers_of (lg_out (sink_of lg s))) (output_record w lg s depth txt).

(** What [c.Close()] answers: the remote sink always answers nil. *)
Definition close_result (e : Env) (hist : list Event) (c : Writer) : error :=
  match c with
  | Snio _ => None
  | _ => env_close e hist c
  end.

(** Closing one closer in [Close]: the call, the flush of the remote sink,
    and the line on standard error when the closer failed. *)
Definition closer_events (e : Env) (hist : list Event) (c : Writer) : list Event :=
  EvClose c ::
  match c with
  | Snio _ => [EvFlush flashTimeout]
  | _ =>
      match env_close e hist c with
      | Some err => [EvWrite os_Stderr (close_failure_text (env_show e c) err)]
      | None => []
      end
  end.

(** The calls of the loop of [Close] over the closers [cs]. *)
Fixpoint closing (e : Env) (hist : list Event) (cs : list Writer) : list Event :=
  match cs with
  | [] => []
  | c :: cs' =>
      (closer_events e hist c ++ closing e (hist ++ closer_events e hist c) cs')%list
  end.

(** The calls of [Close] on the logger [lg], between taking and releasing
    the lock. *)
Definition Close_events (w : World) (lg : Logger) : list Event :=
  if initialized lg
  then closing (env w) (trace w ++ [EvLock])%list (closers lg)
  else [].

(** A line on standard error. *)
Definition is_stderr_write (e : Event) : bool :=
  match e with EvWrite os_Stderr _ => true | _ => false end.

(** The standard stream and the tag [makeLog] selects for a severity. *)
Definition std_stream (s : severity) : Writer :=
  if s =? sInfo then os_Stdout
  else if s =? sWarning then os_Stdout
  else os_Stderr.

Definition tag_of (s : severity) : string :=
  if s =? sInfo then tagInfo
  else if s =? sWarning then tagWarning
  else if s =? sError then tagError
  else tagFatal.

(** An environment in which the caller's writers fail: every write and
    every close of a [UserWriter] returns an error. *)
Definition broken_env : Env :=
  {| env_write := fun _ wr p =>
       match wr with
       | UserWriter _ _ => (0, Some "write failed")
       | _ => (len p, None)
       end;
     env_close := fun _ wr =>
       match wr with
       | UserWriter _ _ => Some "close failed"
       | _ => None
       end;
     env_header := fun _ _ _ => "2016/02/01 10:00:00.000000 main.go:10: ";
     env_show := fun _ => "writer" |}.

(** A program that has connected the backend and called
    [Init("demo", verbose, false, logFile)] once: the logger is at
    address 1 and is the default. *)
Definition demo_world (e : Env) (verbose : bool) (logFile : Writer) : World :=
  snd (Init "demo" verbose false logFile (set_client true (boot_world e))).

(** The calls a run made after the trace had [n] events. *)
Definition events_since (n : nat) (w : World) : list Event := skipn n (trace w).


(** The local writers [makeLog] puts before the remote sink: the log file
    when there is one, the standard stream in verbose mode. *)
Definition local_writers (verbose : bool) (logFile : Writer) (s : severity) : list Writer :=
  (match logFile with nil_Writer => [] | _ => [logFile] end ++
   (if verbose then [std_stream s] else []))%list.


(** The logger an [Init] call generates. *)
Definition generated (call : string * bool * bool * Writer) : Logger :=
  let '(_, verbose, _, logFile) := call in Init_logger verbose logFile.

(** The invariant of the tracker: the counter is the number of deliveries
    that still owe their [Done], and every delivery has made or still
    owes exactly one [Done]. *)
Definition tracker_inv (st : Tracker.State) : Prop :=
  Tracker.wg st = Z.of_nat (Tracker.in_flight st) /\
  Forall (fun g => (Tracker.dones g + Tracker.owed g = 1)%nat) (Tracker.goroutines st).

(** A program that has called [ConnectSentry] with success and has not
    called [Init]: the default logger is the bootstrap one. *)
Definition connected_app (e : Env) : App :=
  snd (ConnectSentry (fun _ => None) "https://key@sentry.invalid/1"
         (boot_world e, Tracker.init_state)).

(* ------------------------------------------------------------------ *)
(** ** [SetFlags] *)

(** [func (l *log.Logger) SetFlags(flag int)] *)
Definition log_SetFlags (flag : Z) (l : GoLogger) : GoLogger :=
  log_New (lg_out l) (lg_prefix l) flag.

(** Writing through a [*Logger]. *)
Definition store (l : ptr) (v : Logger) : M unit :=
  modify (fun w => set_heap (Tracker.update_nth l v (heap w)) w).

(** [func SetFlags(flag int)]: the flags of the Info and Warning sinks of
    the default logger; the two lines for the Error and Fatal sinks are
    commented out in the source. *)
Definition SetFlags (flag : Z) : M unit :=
  (d <- get defaultLogger ;;
   lg <- deref d ;;
   store d {| infoLog := log_SetFlags flag (infoLog lg);
              warningLog := warningLog lg;
              errorLog := errorLog lg;
              fatalLog := fatalLog lg;
              closers := closers lg;
              initialized := initialized lg |}) ;;;
  (d <- get defaultLogger ;;
   lg <- deref d ;;
   store d {| infoLog := infoLog lg;
              warningLog := log_SetFlags flag (warningLog lg);
              errorLog := errorLog lg;
              fatalLog := fatalLog lg;
              closers := closers lg;
              initialized := initialized lg |}).

(* ------------------------------------------------------------------ *)
(** ** Vocabulary of the further properties *)

(** What a statement of a delivery goroutine hands to the backend. *)
Definition delivered (ins : Tracker.Instr) (ok : bool) : list Tracker.Delivery :=
  match ins with
  | Tracker.ICapture level msg => [Tracker.Captured level msg ok]
  | Tracker.IFlush timeout => [Tracker.Flushed timeout]
  | Tracker.IDone => []
  end.

(** The backend has received what the statement [ins] hands over, or a
    goroutine still has that statement to run. *)
Definition promised (ins : Tracker.Instr) (st : Tracker.State) : Prop :=
  (exists ok d, delivered ins ok = [d] /\ In d (Tracker.deliveries st)) \/
  (exists g, In g (Tracker.goroutines st) /\ In ins (Tracker.pending g)).

(** The backend has received [msg] at [level]. *)
Definition captured (level : Level) (msg : string) (st : Tracker.State) : Prop :=
  exists ok, In (Tracker.Captured level msg ok) (Tracker.deliveries st).

(** Every goroutine has run to its end. *)
Definition all_finished (st : Tracker.State) : Prop :=
  Forall (fun g => Tracker.pending g = []) (Tracker.goroutines st).

(** [call] logs [local] through the Info sink of [lg] and has the backend
    capture [remote] at level Info before it returns. *)
Definition sends_both (call : ST App unit) (lg : Logger) (local remote : string)
    (s : App) : Prop :=
  exists evs k st',
    call s = (Ret tt, (add_events (EvLock :: evs ++ [EvUnlock]) (fst s), st')) /\
    (1 <= k)%nat /\
    write_calls evs =
      map (fun wr => EvWrite wr (output_record (fst s) lg sInfo 0 local))
          (firstn k (writers_of (lg_out (infoLog lg)))) /\
    captured LevelInfo remote st' /\
    Tracker.wg st' = 0.

(** The call [call] logs the text [txt] at severity [s] through the logger
    [lg]: it returns, and between [Lock] and [Unlock] it hands the record
    of [lg]'s sink for [s] to the writers of that sink, from the first
    one on. *)
Definition logs_through (call : M unit) (lg : Logger) (s : severity)
    (depth : Z) (txt : string) (w : World) : Prop :=
  exists evs k,
    call w = (Ret tt, add_events (EvLock :: evs ++ [EvUnlock]) w) /\
    (1 <= k)%nat /\
    write_calls evs =
      map (fun wr => EvWrite wr (output_record w lg s depth txt))
          (firstn k (writers_of (lg_out (sink_of lg s)))).

(** The logger [lg] after [SetFlags flag] went through it. *)
Definition reflagged (flag : Z) (lg : Logger) : Logger :=
  {| infoLog := log_SetFlags flag (infoLog lg);
     warningLog := log_SetFlags flag (warningLog lg);
     errorLog := errorLog lg;
     fatalLog := fatalLog lg;
     closers := closers lg;
     initialized := initialized lg |}.

(** A program that calls the package: logging calls [l.output(s, depth,
    txt)] and [l.Close()], one after the other. *)
Inductive Op :=
| OpOutput (l : ptr) (s : severity) (depth : Z) (txt : string)
| OpClose (l : ptr).

Definition op (o : Op) : M unit :=
  match o with
  | OpOutput l s depth txt => Logger_output l s depth txt
  | OpClose l => Logger_Close l
  end.

Fixpoint ops (os : list Op) : M unit :=
  match os with
  | [] => ret tt
  | o :: os' => op o ;;; ops os'
  end.

(** The call is made on a logger the package built, with one of the four
    severities. *)
Definition op_ok (w : World) (o : Op) : Prop :=
  match o with
  | OpOutput l s _ _ =>
      is_severity s /\ exists lg, nth_error (heap w) l = Some lg /\ built lg
  | OpClose l => exists lg, nth_error (heap w) l = Some lg /\ built lg
  end.

(* ================================================================== *)
(** * Properties *)

(** ** Worlds and the monad *)

Lemma Level_eqb_eq a b : Level_eqb a b = true <-> a = b.
Proof. destruct a, b; simpl; split; congruence. Qed.

Lemma In_firstn {A} (x : A) : forall n l, In x (firstn n l) -> In x l.
Proof.
  induction n as [|n IH]; intros [|y l]; simpl; try tauto.
  intros [H|H]; [now left|right; now apply IH].
Qed.

Lemma add_events_nil w : add_events [] w = w.
Proof. destruct w; unfold add_events; simpl. now rewrite app_nil_r. Qed.

Lemma add_events_app a b w : add_events b (add_events a w) = add_events (a ++ b) w.
Proof. unfold add_events; simpl. now rewrite app_assoc. Qed.

Lemma emit_add_events e w : emit e w = add_events [e] w.
Proof. reflexivity. Qed.

Lemma yields_ret {A} (a : A) w : yields (ret a) w a [].
Proof. unfold yields, ret. now rewrite add_events_nil. Qed.

Lemma yields_get {A} (f : World -> A) w : yields (get f) w (f w) [].
Proof. unfold yields, get. now rewrite add_events_nil. Qed.

Lemma yields_tell e w : yields (tell e) w tt [e].
Proof. reflexivity. Qed.

Lemma yields_bind {A B} (m : M A) (k : A -> M B) w a b e1 e2 :
  yields m w a e1 ->
  yields (k a) (add_events e1 w) b e2 ->
  yields (bind m k) w b (e1 ++ e2).
Proof.
  unfold yields, bind. intros -> ->. now rewrite add_events_app.
Qed.

(** Taking the lock around a body that only makes calls. *)
Lemma locked_yields {A} (body : M A) w a evs :
  lock_held w = false ->
  yields body (add_events [EvLock] (set_lock true w)) a evs ->
  yields (locked body) w a (EvLock :: evs ++ [EvUnlock]).
Proof.
  unfold yields, locked, Lock. intros Hfree Hbody.
  rewrite Hfree. rewrite emit_add_events, Hbody.
  unfold bind, Unlock, ret. simpl.
  destruct w; simpl in *; subst.
  unfold emit, add_events, set_lock; simpl.
  do 2 f_equal. now rewrite <- !app_assoc.
Qed.

(** A held lock blocks the caller before anything happens. *)
Lemma locked_blocks {A} (body : M A) w :
  lock_held w = true -> locked body w = (Blocked, w).
Proof. unfold locked, Lock. now intros ->. Qed.

(** ** Writers *)

Lemma snio_Write_yields level p w :
  yields (snio_Write level p) w (0, None) (snio_events (hub_client w) level p).
Proof.
  unfold yields, snio_Write, snio_events, sentryOutput, bind, get, tell, modify, ret.
  destruct (hub_client w) eqn:Hc; simpl.
  - destruct (Level_eqb level LevelFatal); simpl.
    + rewrite !emit_add_events, add_events_app. reflexivity.
    + reflexivity.
  - now rewrite add_events_nil.
Qed.

Lemma Writer_Write_yields wr p w :
  wr <> nil_Writer ->
  yields (Writer_Write wr p) w (write_result (env w) (trace w) wr p)
         (call_events (hub_client w) p wr).
Proof.
  intros Hnn. destruct wr; try congruence; try reflexivity.
  unfold Writer_Write, call_events, write_result.
  change (EvWrite (Snio level) p :: snio_events (hub_client w) level p)
    with ([EvWrite (Snio level) p] ++ snio_events (hub_client w) level p)%list.
  eapply yields_bind; [apply yields_tell|].
  exact (snio_Write_yields level p (add_events [EvWrite (Snio level) p] w)).
Qed.

Lemma multiWriter_Write_yields ws p : forall w,
  no_nil ws ->
  exists r,
    yields (multiWriter_Write ws p) w r
           (sink_events (env w) (hub_client w) (trace w) ws p).
Proof.
  induction ws as [|wr ws IH]; intros w Hnn.
  - exists (len p, None). apply yields_ret.
  - inversion Hnn as [|? ? Hwr Hws]; subst.
    pose proof (Writer_Write_yields wr p w Hwr) as Hw.
    unfold sink_events. simpl reached.
    destruct (write_result (env w) (trace w) wr p) as [n [e|]] eqn:Hres.
    + exists (n, Some e). simpl. rewrite app_nil_r.
      unfold yields in *. simpl multiWriter_Write. unfold bind. rewrite Hw.
      reflexivity.
    + destruct (n =? len p) eqn:Hn.
      * destruct (IH (add_events (call_events (hub_client w) p wr) w) Hws) as [r Hr].
        exists r. simpl firstn. simpl flat_map.
        unfold yields in *. simpl multiWriter_Write. unfold bind. rewrite Hw, Hn.
        rewrite Hr. unfold sink_events. simpl. now rewrite add_events_app.
      * exists (n, Some ErrShortWrite). simpl. rewrite app_nil_r.
        unfold yields in *. simpl multiWriter_Write. unfold bind. rewrite Hw, Hn.
        reflexivity.
Qed.

Lemma Out_Write_yields o p w :
  no_nil (writers_of o) ->
  exists r,
    yields (Out_Write o p) w r
           (sink_events (env w) (hub_client w) (trace w) (writers_of o) p).
Proof.
  destruct o as [wr|ws]; intros Hnn.
  - inversion Hnn; subst. eexists. unfold sink_events. simpl writers_of.
    assert (Hone : firstn (reached (env w) (hub_client w) (trace w) [wr] p) [wr] = [wr]).
    { simpl. destruct (write_result _ _ _ _) as [n [e|]]; [reflexivity|].
      destruct (n =? len p); reflexivity. }
    rewrite Hone. simpl flat_map. rewrite app_nil_r.
    now apply Writer_Write_yields.
  - now apply multiWriter_Write_yields.
Qed.

Lemma log_Output_yields l calldepth s w :
  no_nil (writers_of (lg_out l)) ->
  exists err,
    yields (log_Output l calldepth s) w err
           (sink_events (env w) (hub_client w) (trace w) (writers_of (lg_out l))
              (log_record l (env_header (env w) (trace w) (lg_flag l) calldepth) s)).
Proof.
  intros Hnn.
  destruct (Out_Write_yields (lg_out l)
              (log_record l (env_header (env w) (trace w) (lg_flag l) calldepth) s)
              w Hnn) as [r Hr].
  exists (snd r). unfold yields in *. unfold log_Output, bind, get, ret.
  now rewrite Hr.
Qed.

Lemma reached_pos e client hist wr ws p :
  (1 <= reached e client hist (wr :: ws) p)%nat.
Proof. simpl. lia. Qed.

Lemma reached_le e client ws p : forall hist,
  (reached e client hist ws p <= List.length ws)%nat.
Proof.
  induction ws as [|wr ws IH]; intros hist; simpl; [lia|].
  destruct (write_result e hist wr p) as [n [err|]]; [lia|].
  destruct (n =? len p); [|lia]. specialize (IH (hist ++ call_events client p wr)%list). lia.
Qed.



Lemma sink_events_calls client p ws :
  write_calls (flat_map (call_events client p) ws) = map (fun wr => EvWrite wr p) ws.
Proof.
  induction ws as [|wr ws IH]; [reflexivity|].
  unfold write_calls in *. simpl. f_equal.
  rewrite filter_app, IH.
  destruct wr; simpl; try reflexivity.
  unfold snio_events. destruct client; [|reflexivity].
  destruct (Level_eqb level LevelFatal); reflexivity.
Qed.

(** One record on a sink: its writers are called in order, each at most
    once, from the first one on. *)
Lemma write_calls_sink_events e client hist ws p :
  write_calls (sink_events e client hist ws p) =
  map (fun wr => EvWrite wr p) (firstn (reached e client hist ws p) ws).
Proof. apply sink_events_calls. Qed.

Lemma In_call_events client p wr ev :
  In ev (call_events client p wr) ->
  ev = EvWrite wr p \/
  exists level, wr = Snio level /\ client = true /\
    (ev = EvCapture level p \/ (level = LevelFatal /\ ev = EvFlush flashTimeout)).
Proof.
  unfold call_events. intros [H|H]; [now left|].
  destruct wr; try contradiction. right. exists level.
  unfold snio_events in H. destruct client; [|contradiction].
  destruct H as [H|H]; [now auto|].
  destruct (Level_eqb level LevelFatal) eqn:Hl; [|contradiction].
  apply Level_eqb_eq in Hl. destruct H as [H|[]]. now auto.
Qed.

(** Every call a record makes carries that record, and goes to a writer of
    the sink. *)
Lemma In_sink_events e client hist ws p ev :
  In ev (sink_events e client hist ws p) ->
  exists wr, In wr ws /\
    (ev = EvWrite wr p \/
     exists level, wr = Snio level /\ client = true /\
       (ev = EvCapture level p \/ (level = LevelFatal /\ ev = EvFlush flashTimeout))).
Proof.
  unfold sink_events. intros H. apply in_flat_map in H as [wr [Hin Hev]].
  exists wr. split; [eapply In_firstn; eauto|].
  now apply In_call_events.
Qed.

Lemma sink_events_no_lock e client hist ws p :
  forallb (fun ev => negb (is_lock_event ev)) (sink_events e client hist ws p) = true.
Proof.
  apply forallb_forall. intros ev H.
  apply In_sink_events in H as [wr [_ [->|[level [_ [_ [->|[_ ->]]]]]]]]; reflexivity.
Qed.


(** ** [output] and [Close] *)

Lemma deref_yields l lg w :
  nth_error (heap w) l = Some lg -> yields (deref l) w lg [].
Proof. unfold yields, deref. intros ->. now rewrite add_events_nil. Qed.

(** What one [output] call does: it takes the lock, hands one record to
    the sink of its severity, and releases the lock. *)
Lemma Logger_output_yields l lg s depth txt w :
  nth_error (heap w) l = Some lg ->
  lock_held w = false ->
  is_severity s ->
  no_nil (writers_of (lg_out (sink_of lg s))) ->
  yields (Logger_output l s depth txt) w tt
         (EvLock :: output_events w lg s depth txt ++ [EvUnlock]).
Proof.
  intros Hl Hfree Hsev Hnn. unfold Logger_output.
  apply locked_yields; [assumption|].
  set (w1 := add_events [EvLock] (set_lock true w)).
  change (output_events w lg s depth txt) with
    ([] ++ sink_events (env w1) (hub_client w1) (trace w1)
             (writers_of (lg_out (sink_of lg s)))
             (log_record (sink_of lg s)
                (env_header (env w1) (trace w1) (lg_flag (sink_of lg s)) (3 + depth))
                txt))%list.
  eapply yields_bind; [apply deref_yields; exact Hl|].
  rewrite add_events_nil.
  destruct (log_Output_yields (sink_of lg s) (3 + depth) txt w1 Hnn) as [err Herr].
  rewrite <- (app_nil_r (sink_events _ _ _ _ _)).
  destruct Hsev as [ -> | [ -> | [ -> | -> ]]];
    (eapply yields_bind; [exact Herr|apply yields_ret]).
Qed.

Lemma Closer_Close_yields c w :
  c <> nil_Writer ->
  yields (Closer_Close c) w (close_result (env w) (trace w) c)
         (EvClose c :: match c with Snio _ => [EvFlush flashTimeout] | _ => [] end).
Proof.
  intros Hnn. destruct c; try congruence; try reflexivity.
  unfold yields, Closer_Close, snio_Close, bind, tell, modify, ret. simpl.
  now rewrite !emit_add_events, add_events_app.
Qed.

Lemma close_all_yields cs : forall w,
  no_nil cs ->
  yields (close_all cs) w tt (closing (env w) (trace w) cs).
Proof.
  induction cs as [|c cs IH]; intros w Hnn; [apply yields_ret|].
  inversion Hnn as [|? ? Hc Hcs]; subst.
  pose proof (Closer_Close_yields c w Hc) as Hclose.
  cbn [close_all closing].
  assert (Hok : forall evs,
             close_result (env w) (trace w) c = None ->
             closer_events (env w) (trace w) c = evs ->
             yields (Closer_Close c) w None evs ->
             yields (err <- Closer_Close c ;;
                     match err with
                     | Some e =>
                         shown <- get (fun w0 => env_show (env w0) c) ;;
                         _ <- Writer_Write os_Stderr (close_failure_text shown e) ;;
                         close_all cs
                     | None => close_all cs
                     end) w tt
                    (evs ++ closing (env w) (trace w ++ evs) cs)).
  { intros evs _ _ Hy. eapply yields_bind; [exact Hy|]. now apply IH. }
  assert (Hfail : forall e,
             close_result (env w) (trace w) c = Some e ->
             yields (Closer_Close c) w (Some e) [EvClose c] ->
             yields (err <- Closer_Close c ;;
                     match err with
                     | Some e =>
                         shown <- get (fun w0 => env_show (env w0) c) ;;
                         _ <- Writer_Write os_Stderr (close_failure_text shown e) ;;
                         close_all cs
                     | None => close_all cs
                     end) w tt
                    ([EvClose c] ++
                     ([] ++ [EvWrite os_Stderr (close_failure_text (env_show (env w) c) e)] ++
                      closing (env w)
                        (trace w ++ [EvClose c;
                                     EvWrite os_Stderr
                                       (close_failure_text (env_show (env w) c) e)]) cs))).
  { intros e _ Hy. eapply yields_bind; [exact Hy|].
    eapply yields_bind; [apply yields_get|]. rewrite add_events_nil.
    eapply yields_bind; [apply Writer_Write_yields; discriminate|].
    rewrite add_events_app. apply IH; assumption. }
  destruct c; try congruence.
  4: { apply Hok; [reflexivity|reflexivity|exact Hclose]. }
  all: unfold closer_events; simpl close_result in Hclose.
  all: destruct (env_close (env w) (trace w) _) as [err|] eqn:Herr.
  all: first [ apply Hfail; [exact Herr|exact Hclose]
             | apply Hok; [exact Herr|unfold closer_events; now rewrite Herr|exact Hclose] ].
Qed.

(** What [Close] does: under the lock, nothing when the logger was never
    initialized, the loop over the closers otherwise. *)
Lemma Logger_Close_yields l lg w :
  nth_error (heap w) l = Some lg ->
  lock_held w = false ->
  no_nil (closers lg) ->
  yields (Logger_Close l) w tt (EvLock :: Close_events w lg ++ [EvUnlock]).
Proof.
  intros Hl Hfree Hnn. unfold Logger_Close.
  apply locked_yields; [assumption|].
  set (w1 := add_events [EvLock] (set_lock true w)).
  change (Close_events w lg) with
    ([] ++ (if initialized lg then closing (env w1) (trace w1) (closers lg) else []))%list.
  eapply yields_bind; [apply deref_yields; exact Hl|].
  rewrite add_events_nil.
  destruct (initialized lg); simpl.
  - now apply close_all_yields.
  - apply yields_ret.
Qed.

(** The loop of [Close] calls [Close] on every closer, in order, once. *)
Lemma close_calls_closing e cs : forall hist,
  close_calls (closing e hist cs) = map EvClose cs.
Proof.
  induction cs as [|c cs IH]; intros hist; [reflexivity|].
  cbn [closing]. unfold close_calls in *. rewrite filter_app, IH.
  unfold closer_events. destruct c; simpl; try reflexivity;
    destruct (env_close e hist _); reflexivity.
Qed.

(** Besides the calls of [Close], the loop only flushes the backend and
    prints on standard error. *)
Lemma closing_shape e cs : forall hist,
  forallb (fun ev => is_Close_call ev || is_remote_event ev || is_stderr_write ev)
          (closing e hist cs) = true.
Proof.
  induction cs as [|c cs IH]; intros hist; [reflexivity|].
  cbn [closing]. rewrite forallb_app, IH, andb_true_r.
  unfold closer_events. destruct c; simpl; try reflexivity;
    destruct (env_close e hist _); reflexivity.
Qed.

(** A closer that fails is reported on standard error right after its
    call, and the loop goes on. *)
Lemma closing_reports e cs : forall hist pre c post err,
  closing e hist cs = (pre ++ EvClose c :: post)%list ->
  close_result e (hist ++ pre) c = Some err ->
  exists post',
    post = EvWrite os_Stderr (close_failure_text (env_show e c) err) :: post'.
Proof.
  induction cs as [|c0 cs IH]; intros hist pre c post err Heq Hres.
  - destruct pre; discriminate.
  - cbn [closing] in Heq.
    assert (Hce : closer_events e hist c0 = [EvClose c0] /\ close_result e hist c0 = None
                  \/ (exists t, closer_events e hist c0 = [EvClose c0; t] /\
                                is_Close_call t = false /\
                                (close_result e hist c0 = None \/
                                 exists err0, close_result e hist c0 = Some err0 /\
                                   t = EvWrite os_Stderr
                                         (close_failure_text (env_show e c0) err0)))).
    { unfold closer_events, close_result.
      destruct c0; try (destruct (env_close e hist _) as [err0|];
        [right; eexists; split; [reflexivity|split; [reflexivity|right; eauto]]
        |left; split; reflexivity]).
      right. eexists. split; [reflexivity|]. split; [reflexivity|now left]. }
    destruct pre as [|x pre].
    + rewrite app_nil_r in Hres. cbn [app] in Heq.
      destruct Hce as [[Hce Hnone]|[t [Hce [_ Ht]]]]; rewrite Hce in Heq;
        simpl in Heq; injection Heq as Hc Hpost; subst c0.
      * congruence.
      * destruct Ht as [Hnone|[err0 [Hsome ->]]]; [congruence|].
        rewrite Hsome in Hres. injection Hres as ->. subst post. eauto.
    + destruct Hce as [[Hce _]|[t [Hce [Hnc _]]]]; rewrite Hce in *;
        simpl in Heq; injection Heq as Hx Hrest; subst x.
      * apply (IH (hist ++ [EvClose c0])%list pre c post err Hrest).
        now rewrite <- app_assoc.
      * destruct pre as [|y pre]; simpl in Hrest; injection Hrest as Hy Hrest.
        -- subst t. discriminate.
        -- subst y.
           apply (IH (hist ++ [EvClose c0; t])%list pre c post err Hrest).
           now rewrite <- app_assoc.
Qed.

Lemma close_calls_Close_events w lg :
  close_calls (Close_events w lg) =
  if initialized lg then map EvClose (closers lg) else [].
Proof.
  unfold Close_events. destruct (initialized lg); [apply close_calls_closing|reflexivity].
Qed.

(** A held lock makes [Close] wait: nothing is closed before the lock is
    taken. *)
Lemma Logger_Close_blocks l w :
  lock_held w = true -> Logger_Close l w = (Blocked, w).
Proof. apply locked_blocks. Qed.

(** C6.  [Close()] takes the shared lock and releases it at the end; it
    does nothing in between when the logger was never initialized;
    otherwise it calls [Close] on every entry of the closer list, in
    order.  A closer that fails is reported on standard error right after
    its call, the loop goes on with the remaining closers, and [Close()]
    itself returns normally. *)
Theorem Close_closes_every_closer l lg w :
  nth_error (heap w) l = Some lg ->
  lock_held w = false ->
  no_nil (closers lg) ->
  exists evs,
    Logger_Close l w = (Ret tt, add_events (EvLock :: evs ++ [EvUnlock]) w) /\
    (initialized lg = false -> evs = []) /\
    (initialized lg = true ->
       close_calls evs = map EvClose (closers lg) /\
       (forall pre c post err,
           evs = (pre ++ EvClose c :: post)%list ->
           close_result (env w) (trace w ++ EvLock :: pre) c = Some err ->
           exists post',
             post = EvWrite os_Stderr
                      (close_failure_text (env_show (env w) c) err) :: post') /\
       forallb (fun ev => is_Close_call ev || is_remote_event ev || is_stderr_write ev)
               evs = true).
Proof.
  intros Hl Hfree Hnn. exists (Close_events w lg).
  split; [exact (Logger_Close_yields l lg w Hl Hfree Hnn)|].
  unfold Close_events. split; intros Hinit; rewrite Hinit; [reflexivity|].
  split; [apply close_calls_closing|]. split; [|apply closing_shape].
  intros pre c post err Heq Hres.
  apply (closing_reports _ _ _ _ _ _ _ Heq).
  rewrite <- app_assoc. exact Hres.
Qed.

Lemma Close_closes_every_closer_witness :
  exists evs,
    Logger_Close 1%nat (demo_world broken_env true (UserWriter 0 true)) =
      (Ret tt, add_events (EvLock :: evs ++ [EvUnlock])
                 (demo_world broken_env true (UserWriter 0 true))) /\
    close_calls evs = [EvClose sentryFatalLog; EvClose (UserWriter 0 true)].
Proof.
  destruct (Close_closes_every_closer 1%nat
              (Init_logger true (UserWriter 0 true))
              (demo_world broken_env true (UserWriter 0 true)))
    as [evs [Hrun [_ Hinit]]].
  - reflexivity.
  - reflexivity.
  - repeat constructor; discriminate.
  - exists evs. split; [exact Hrun|]. exact (proj1 (Hinit eq_refl)).
Defined.

(** C3, as the code has it.  [Close()] can be repeated and repeats its
    effects: it leaves the logger as it was (same closer list, same
    [initialized] flag: there is no closed state), and a second [Close()]
    calls [Close] on every registered closer again, in the same order. *)
Theorem Close_twice_repeats l lg w :
  nth_error (heap w) l = Some lg ->
  lock_held w = false ->
  no_nil (closers lg) ->
  exists evs1 evs2 w1,
    Logger_Close l w = (Ret tt, w1) /\
    w1 = add_events (EvLock :: evs1 ++ [EvUnlock]) w /\
    nth_error (heap w1) l = Some lg /\
    Logger_Close l w1 = (Ret tt, add_events (EvLock :: evs2 ++ [EvUnlock]) w1) /\
    close_calls evs1 = (if initialized lg then map EvClose (closers lg) else []) /\
    close_calls evs2 = close_calls evs1.
Proof.
  intros Hl Hfree Hnn.
  set (w1 := add_events (EvLock :: Close_events w lg ++ [EvUnlock]) w).
  exists (Close_events w lg), (Close_events w1 lg), w1.
  split; [exact (Logger_Close_yields l lg w Hl Hfree Hnn)|].
  split; [reflexivity|]. split; [exact Hl|].
  split; [exact (Logger_Close_yields l lg w1 Hl Hfree Hnn)|].
  now rewrite !close_calls_Close_events.
Qed.

Lemma Close_twice_repeats_witness :
  exists evs1 evs2 w1,
    Logger_Close 1%nat (demo_world quiet_env false (UserWriter 0 true)) = (Ret tt, w1) /\
    Logger_Close 1%nat w1 = (Ret tt, add_events (EvLock :: evs2 ++ [EvUnlock]) w1) /\
    close_calls evs2 = close_calls evs1.
Proof.
  destruct (Close_twice_repeats 1%nat
              (Init_logger false (UserWriter 0 true))
              (demo_world quiet_env false (UserWriter 0 true)))
    as [evs1 [evs2 [w1 [H1 [_ [_ [H2 [_ H3]]]]]]]].
  - reflexivity.
  - reflexivity.
  - repeat constructor; discriminate.
  - exists evs1, evs2, w1. auto.
Defined.

(** C3, as stated, fails: on a logger built by [Init] with a log file that
    is a closer, the second [Close()] closes the remote sink and the log
    file again. *)
Lemma Close_twice_closes_again :
  exists w1 w2,
    Logger_Close 1%nat (demo_world quiet_env false (UserWriter 0 true)) = (Ret tt, w1) /\
    Logger_Close 1%nat w1 = (Ret tt, w2) /\
    close_calls (events_since (List.length (trace w1)) w2) =
      [EvClose sentryFatalLog; EvClose (UserWriter 0 true)] /\
    option_map initialized (nth_error (heap w2) 1%nat) = Some true.
Proof.
  eexists. eexists. split; [vm_compute; reflexivity|].
  split; [vm_compute; reflexivity|]. split; vm_compute; reflexivity.
Qed.

(** ** The loggers the package builds *)

Lemma Init_logger_sink verbose logFile s :
  is_severity s ->
  sink_of (Init_logger verbose logFile) s =
  log_New (OutMulti (match logFile with nil_Writer => [] | _ => [logFile] end ++
                     (if verbose then [std_stream s] else []) ++
                     [Snio (sentry_level s)]))
          (tag_of s) flags.
Proof.
  intros [ -> | [ -> | [ -> | -> ]]]; destruct verbose, logFile; reflexivity.
Qed.

Lemma bootstrap_sink s :
  is_severity s ->
  sink_of bootstrap_logger s =
  log_New (OutWriter os_Stderr) (initText ++ tag_of s) flags.
Proof. intros [ -> | [ -> | [ -> | -> ]]]; reflexivity. Qed.

Lemma built_sink_no_nil lg s :
  built lg -> is_severity s -> no_nil (writers_of (lg_out (sink_of lg s))).
Proof.
  intros [|verbose logFile] Hs.
  - rewrite bootstrap_sink by assumption. repeat constructor; discriminate.
  - rewrite Init_logger_sink by assumption. simpl.
    assert (Hstd : std_stream s <> nil_Writer).
    { destruct Hs as [ -> | [ -> | [ -> | -> ]]]; discriminate. }
    destruct verbose, logFile; repeat constructor; try discriminate; assumption.
Qed.

Lemma built_closers_no_nil lg : built lg -> no_nil (closers lg).
Proof.
  intros [|verbose logFile]; [constructor|].
  destruct logFile as [| | |id [|]|level]; repeat constructor; discriminate.
Qed.

Lemma built_sink_tagged lg s :
  built lg -> is_severity s ->
  exists pre, lg_prefix (sink_of lg s) = pre ++ tag_of s.
Proof.
  intros [|verbose logFile] Hs.
  - exists initText. now rewrite bootstrap_sink.
  - exists "". now rewrite Init_logger_sink.
Qed.

(** ** Fatal *)




Section FatalClaim.

Variable Arg : Type.
Variable fmt_Sprint : list Arg -> string.
Variable fmt_Sprintln : list Arg -> string.
Variable fmt_Sprintf : string -> list Arg -> string.


End FatalClaim.


(** ** Logging calls on a logger built by [Init] *)

Lemma Init_logger_writers verbose logFile s :
  is_severity s ->
  writers_of (lg_out (sink_of (Init_logger verbose logFile) s)) =
  (local_writers verbose logFile s ++ [Snio (sentry_level s)])%list.
Proof.
  intros Hs. rewrite Init_logger_sink by assumption.
  unfold local_writers. simpl. now rewrite <- app_assoc.
Qed.

Lemma Init_output_yields l verbose logFile s depth txt w :
  nth_error (heap w) l = Some (Init_logger verbose logFile) ->
  lock_held w = false ->
  is_severity s ->
  yields (Logger_output l s depth txt) w tt
    (EvLock :: output_events w (Init_logger verbose logFile) s depth txt ++ [EvUnlock]).
Proof.
  intros Hl Hfree Hs. apply Logger_output_yields; try assumption.
  apply built_sink_no_nil; [constructor|assumption].
Qed.






(** The Info-level entry points are [output] calls at severity [sInfo]. *)
Lemma Info_calls_are_output Arg fmt_Sprint fmt_Sprintln fmt_Sprintf l depth format v :
  Logger_Info Arg fmt_Sprint l v = Logger_output l sInfo 0 (fmt_Sprint v) /\
  Logger_InfoDepth Arg fmt_Sprint l depth v = Logger_output l sInfo depth (fmt_Sprint v) /\
  Logger_Infoln Arg fmt_Sprintln l v = Logger_output l sInfo 0 (fmt_Sprintln v) /\
  Logger_Infof Arg fmt_Sprintf l format v = Logger_output l sInfo 0 (fmt_Sprintf format v).
Proof. repeat split. Qed.




(** The other proviso of C9: when [logFile] is [os.Stdout] itself, an
    Info record goes to standard output with [verbose = false] too. *)
Lemma Info_logFile_may_be_stdout :
  exists w',
    Logger_Info Fmt.Arg Fmt.Sprint 1%nat [Fmt.AStr "x"]
      (demo_world quiet_env false os_Stdout) = (Ret tt, w') /\
    In (EvWrite os_Stdout ("INFO : 2016/02/01 10:00:00.000000 main.go:10: x" ++ newline))
       (events_since (List.length (trace (demo_world quiet_env false os_Stdout))) w').
Proof.
  eexists. split; [vm_compute; reflexivity|]. vm_compute. auto.
Qed.

(** ** [Init] and the default logger *)

(** One [Init] call: a fresh logger is allocated and returned; it becomes
    the default exactly when the current default is not initialized. *)
Lemma Init_step name verbose x logFile w dl :
  lock_held w = false ->
  nth_error (heap w) (defaultLogger w) = Some dl ->
  exists w',
    Init name verbose x logFile w = (Ret (List.length (heap w)), w') /\
    heap w' = (heap w ++ [Init_logger verbose logFile])%list /\
    defaultLogger w' =
      (if initialized dl then defaultLogger w else List.length (heap w)) /\
    lock_held w' = false /\
    env w' = env w /\ hub_client w' = hub_client w /\
    trace w' = (trace w ++ [EvLock; EvUnlock])%list.
Proof.
  intros Hfree Hd.
  assert (Hd' : nth_error (heap w ++ [Init_logger verbose logFile]) (defaultLogger w)
                = Some dl).
  { rewrite nth_error_app1; [assumption|]. apply nth_error_Some. congruence. }
  destruct w as [e c lk h d tr]. simpl in *. subst lk.
  unfold Init, bind, alloc, locked, Lock, get, deref, modify, ret, Unlock. simpl.
  rewrite Hd'. destruct (initialized dl); simpl;
    (eexists; split; [reflexivity|]; simpl; rewrite <- app_assoc; repeat split).
Qed.

Lemma Init_calls_run calls : forall w dl,
  lock_held w = false ->
  nth_error (heap w) (defaultLogger w) = Some dl ->
  exists w',
    Init_calls calls w = (Ret (seq (List.length (heap w)) (List.length calls)), w') /\
    heap w' = (heap w ++ map generated calls)%list /\
    defaultLogger w' =
      (if initialized dl then defaultLogger w
       else match calls with [] => defaultLogger w | _ :: _ => List.length (heap w) end) /\
    lock_held w' = false.
Proof.
  induction calls as [|[[[name verbose] x] logFile] calls IH]; intros w dl Hfree Hd.
  - exists w. simpl. rewrite app_nil_r. repeat split; [|assumption].
    now destruct (initialized dl).
  - destruct (Init_step name verbose x logFile w dl Hfree Hd)
      as [w1 [Hrun [Hheap [Hdef [Hfree1 _]]]]].
    assert (Hd1 : exists dl1, nth_error (heap w1) (defaultLogger w1) = Some dl1 /\
                              initialized dl1 = true).
    { rewrite Hheap, Hdef. destruct (initialized dl) eqn:Hi.
      - exists dl. split; [|assumption].
        rewrite nth_error_app1; [assumption|]. apply nth_error_Some. congruence.
      - exists (Init_logger verbose logFile). split; [|reflexivity].
        rewrite nth_error_app2, Nat.sub_diag by lia. reflexivity. }
    destruct Hd1 as [dl1 [Hd1 Hi1]].
    destruct (IH w1 dl1 Hfree1 Hd1) as [w' [Hrun' [Hheap' [Hdef' Hfree']]]].
    rewrite Hi1 in Hdef'.
    rewrite Hheap in Hheap'.
    rewrite Hheap, length_app, Nat.add_1_r in Hrun'.
    exists w'. cbn [Init_calls]. unfold bind at 1. rewrite Hrun.
    unfold bind at 1. rewrite Hrun'. unfold ret.
    split; [|split; [|split]].
    + reflexivity.
    + rewrite Hheap'. simpl. now rewrite <- app_assoc.
    + rewrite Hdef', Hdef. reflexivity.
    + assumption.
Qed.



(** ** The WaitGroup of the asynchronous sinks *)

Lemma list_sum_update_nth {A} (f : A -> nat) : forall l i x y,
  nth_error l i = Some x ->
  (list_sum (map f (Tracker.update_nth i y l)) + f x = list_sum (map f l) + f y)%nat.
Proof.
  induction l as [|z l IH]; intros [|i] x y H; simpl in *; try discriminate.
  - injection H as ->. lia.
  - specialize (IH i x y H). lia.
Qed.

Lemma Forall_update_nth {A} (P : A -> Prop) : forall l i y,
  Forall P l -> P y -> Forall P (Tracker.update_nth i y l).
Proof.
  induction l as [|z l IH]; intros [|i] y Hl Hy; simpl; inversion Hl; subst;
    constructor; auto.
Qed.

Lemma length_update_nth {A} : forall (l : list A) i y,
  List.length (Tracker.update_nth i y l) = List.length l.
Proof.
  induction l as [|z l IH]; intros [|i] y; simpl; auto.
Qed.

Lemma owed_le_in_flight gs : forall i g,
  nth_error gs i = Some g ->
  (Tracker.owed g <= list_sum (map Tracker.owed gs))%nat.
Proof.
  induction gs as [|z gs IH]; intros [|i] g H; simpl in *; try discriminate.
  - injection H as ->. lia.
  - specialize (IH i g H). lia.
Qed.

(** One statement of a goroutine: only [Done] touches the counter, and it
    does not panic while the counter is positive. *)
Lemma exec_instr_effect ins ok st :
  (Tracker.is_Done ins = true -> 1 <= Tracker.wg st) ->
  exists stx,
    Tracker.exec_instr ins ok st = (Ret tt, stx) /\
    Tracker.goroutines stx = Tracker.goroutines st /\
    Tracker.connected stx = Tracker.connected st /\
    Tracker.wg stx = Tracker.wg st - (if Tracker.is_Done ins then 1 else 0).
Proof.
  intros Hpos. destruct ins; simpl.
  - eexists. split; [reflexivity|]. simpl. repeat split. lia.
  - eexists. split; [reflexivity|]. simpl. repeat split. lia.
  - specialize (Hpos eq_refl). unfold Tracker.wg_Done, Tracker.wg_Add.
    destruct (Tracker.wg st + -1 <? 0) eqn:Hneg; [apply Z.ltb_lt in Hneg; lia|].
    eexists. split; [reflexivity|]. simpl. repeat split.
Qed.

(** A scheduler step never panics -- the counter does not go negative --
    and keeps the invariant; it runs one statement when the goroutine has
    one. *)
Lemma step_inv i ok st :
  tracker_inv st ->
  exists st',
    Tracker.step i ok st = (Ret tt, st') /\
    tracker_inv st' /\
    Tracker.connected st' = Tracker.connected st /\
    List.length (Tracker.goroutines st') = List.length (Tracker.goroutines st) /\
    (forall g, nth_error (Tracker.goroutines st) i = Some g ->
               Tracker.pending g <> [] ->
               S (Tracker.work st') = Tracker.work st).
Proof.
  intros [Hwg Hall]. unfold Tracker.step.
  destruct (nth_error (Tracker.goroutines st) i) as [g|] eqn:Hg.
  2: { exists st. repeat split; auto. intros g Hg'. discriminate. }
  destruct (Tracker.pending g) as [|ins rest] eqn:Hp.
  { exists st. repeat split; auto. intros g0 Hg0 Hne. congruence. }
  assert (Hgi : (Tracker.dones g + Tracker.owed g = 1)%nat).
  { rewrite Forall_forall in Hall. apply Hall. eapply nth_error_In; eauto. }
  pose proof (owed_le_in_flight _ _ _ Hg) as Hle.
  set (g' := {| Tracker.pending := rest;
                Tracker.dones := Tracker.dones g +
                                 (if Tracker.is_Done ins then 1 else 0) |}).
  pose proof (list_sum_update_nth Tracker.owed _ _ _ g' Hg) as Hsum.
  pose proof (list_sum_update_nth (fun g0 => List.length (Tracker.pending g0)) _ _ _ g' Hg)
    as Hwork.
  cbv beta in Hwork. rewrite Hp in Hwork.
  assert (Howed : Tracker.owed g =
                  ((if Tracker.is_Done ins then 1 else 0) + Tracker.owed g')%nat).
  { unfold Tracker.owed. rewrite Hp. simpl. destruct (Tracker.is_Done ins); reflexivity. }
  destruct (exec_instr_effect ins ok st) as [stx [Hexec [Hgs [Hc Hw]]]].
  { intros Hd. rewrite Hd in Howed. unfold Tracker.in_flight in Hwg. lia. }
  rewrite Hexec.
  eexists. split; [reflexivity|].
  unfold tracker_inv, Tracker.in_flight, Tracker.work. simpl. rewrite Hgs.
  repeat split.
  - rewrite Hw, Hwg. unfold Tracker.in_flight.
    destruct (Tracker.is_Done ins); lia.
  - apply Forall_update_nth; [assumption|].
    assert (Hd' : Tracker.dones g' =
                  (Tracker.dones g + (if Tracker.is_Done ins then 1 else 0))%nat)
      by reflexivity.
    rewrite Hd'. destruct (Tracker.is_Done ins); lia.
  - assumption.
  - apply length_update_nth.
  - intros g0 _ _. simpl in Hwork. lia.
Qed.

(** Starting a delivery: the counter goes up by one and the new goroutine
    owes one [Done]. *)
Lemma spawn_inv body st :
  tracker_inv st ->
  List.length (filter Tracker.is_Done body) = 1%nat ->
  exists st',
    (Tracker.wg_Add 1 ;;; Tracker.go body) st = (Ret tt, st') /\
    tracker_inv st' /\
    Tracker.connected st' = Tracker.connected st.
Proof.
  intros [Hwg Hall] Hbody. unfold bind, Tracker.wg_Add, Tracker.go, modify.
  destruct (Tracker.wg st + 1 <? 0) eqn:Hneg; [apply Z.ltb_lt in Hneg; lia|].
  eexists. split; [reflexivity|]. simpl. split; [|reflexivity].
  unfold tracker_inv, Tracker.in_flight in *. simpl. split.
  - rewrite map_app, list_sum_app. simpl. unfold Tracker.owed at 2. simpl.
    rewrite Hbody. lia.
  - apply Forall_app. split; [assumption|]. constructor; [|constructor].
    unfold Tracker.owed. simpl. lia.
Qed.

(** The shape shared by the two revisions of [Write]. *)
Lemma async_Write_inv body st :
  tracker_inv st ->
  List.length (filter Tracker.is_Done body) = 1%nat ->
  exists st',
    (c <- get Tracker.connected ;;
     (if c then Tracker.wg_Add 1 ;;; Tracker.go body else ret tt) ;;;
     ret (0, @None string)) st = (Ret (0, None), st') /\
    tracker_inv st' /\
    Tracker.connected st' = Tracker.connected st.
Proof.
  intros Hinv Hbody.
  destruct (spawn_inv body st Hinv Hbody) as [st' [Hrun [Hinv' Hc']]].
  cbv beta iota delta [bind get ret] in *.
  destruct (Tracker.connected st) eqn:Hc.
  - exists st'. rewrite Hrun. auto.
  - exists st. auto.
Qed.

Lemma Remote_Write_inv sn p st :
  tracker_inv st ->
  exists st',
    Remote.Write sn p st = (Ret (0, None), st') /\
    tracker_inv st' /\
    Tracker.connected st' = Tracker.connected st.
Proof.
  intros Hinv. exact (async_Write_inv (Remote.Write_body sn p) st Hinv eq_refl).
Qed.

Lemma Internal_Write_inv sn p st :
  tracker_inv st ->
  exists st',
    Internal.Write sn p st = (Ret (0, None), st') /\
    tracker_inv st' /\
    Tracker.connected st' = Tracker.connected st.
Proof.
  intros Hinv. exact (async_Write_inv (Internal.Write_body sn p) st Hinv eq_refl).
Qed.

Lemma ConnectSentry_inv sentry_Init dsn st :
  tracker_inv st ->
  exists r st',
    Internal.ConnectSentry sentry_Init dsn st = (Ret r, st') /\
    tracker_inv st' /\
    Tracker.wg st' = Tracker.wg st /\
    Tracker.goroutines st' = Tracker.goroutines st.
Proof.
  intros Hinv. unfold Internal.ConnectSentry.
  destruct (sentry_Init dsn) as [err|].
  - exists (Some err), st. split; [reflexivity|]. auto.
  - exists None, (Tracker.set_connected true st). split; [reflexivity|].
    repeat split; try reflexivity; apply Hinv.
Qed.

(** No run of the sinks panics, and every run keeps the invariant. *)
Lemma run_inv acts : forall st,
  tracker_inv st ->
  exists st', run acts st = (Ret tt, st') /\ tracker_inv st'.
Proof.
  induction acts as [|a acts IH]; intros st Hinv.
  - exists st. split; [reflexivity|assumption].
  - assert (Hact : exists st1, act a st = (Ret tt, st1) /\ tracker_inv st1).
    { destruct a as [sn p|sn p|sentry_Init dsn|i ok]; simpl.
      - destruct (Remote_Write_inv sn p st Hinv) as [st1 [Hrun [Hinv1 _]]].
        exists st1. unfold bind. rewrite Hrun. auto.
      - destruct (Internal_Write_inv sn p st Hinv) as [st1 [Hrun [Hinv1 _]]].
        exists st1. unfold bind. rewrite Hrun. auto.
      - destruct (ConnectSentry_inv sentry_Init dsn st Hinv) as [r [st1 [Hrun [Hinv1 _]]]].
        exists st1. unfold bind. rewrite Hrun. auto.
      - destruct (step_inv i ok st Hinv) as [st1 [Hrun [Hinv1 _]]]. eauto. }
    destruct Hact as [st1 [Hrun1 Hinv1]].
    destruct (IH st1 Hinv1) as [st' [Hrun' Hinv']].
    exists st'. simpl. unfold bind. rewrite Hrun1. auto.
Qed.

Lemma init_state_inv : tracker_inv Tracker.init_state.
Proof. split; [reflexivity|constructor]. Qed.

Lemma first_runnable_Some gs : forall i,
  Tracker.first_runnable gs = Some i ->
  exists g, nth_error gs i = Some g /\ Tracker.pending g <> [].
Proof.
  induction gs as [|g gs IH]; intros i H; simpl in H; [discriminate|].
  destruct (Tracker.pending g) eqn:Hp.
  - destruct (Tracker.first_runnable gs) as [j|]; [|discriminate].
    injection H as <-. destruct (IH j eq_refl) as [g0 [Hn Hne]]. exists g0. auto.
  - injection H as <-. exists g. split; [reflexivity|congruence].
Qed.

Lemma first_runnable_None gs :
  Tracker.first_runnable gs = None ->
  Forall (fun g => Tracker.pending g = []) gs.
Proof.
  induction gs as [|g gs IH]; intros H; [constructor|]. simpl in H.
  destruct (Tracker.pending g) eqn:Hp; [|discriminate].
  destruct (Tracker.first_runnable gs); [discriminate|]. constructor; auto.
Qed.

Lemma no_work_finished gs :
  list_sum (map (fun g => List.length (Tracker.pending g)) gs) = O ->
  Forall (fun g => Tracker.pending g = []) gs.
Proof.
  induction gs as [|g gs IH]; intros H; [constructor|]. simpl in H.
  constructor; [|apply IH; lia].
  destruct (Tracker.pending g); [reflexivity|simpl in H; lia].
Qed.



(** When every goroutine has finished the counter is zero. *)
Lemma all_finished_wg_zero st :
  tracker_inv st ->
  Forall (fun g => Tracker.pending g = []) (Tracker.goroutines st) ->
  Tracker.wg st = 0.
Proof.
  intros [Hwg _] Hfin. rewrite Hwg. unfold Tracker.in_flight. clear Hwg.
  revert Hfin. generalize (Tracker.goroutines st) as gs.
  induction gs as [|g gs IH]; intros Hfin; [reflexivity|].
  inversion Hfin as [|? ? Hg Hgs]; subst. simpl.
  unfold Tracker.owed at 1. rewrite Hg. simpl. now apply IH.
Qed.


(** While connected, a [Write] starts exactly one delivery: the counter
    goes up by one and one goroutine is added, which owes one [Done]. *)
Lemma connected_Write_starts_one body st :
  Tracker.connected st = true ->
  0 <= Tracker.wg st ->
  (c <- get Tracker.connected ;;
   (if c then Tracker.wg_Add 1 ;;; Tracker.go body else ret tt) ;;;
   ret (0, @None string)) st =
  (Ret (0, None),
   Tracker.set_goroutines
     (Tracker.goroutines st ++ [{| Tracker.pending := body; Tracker.dones := 0 |}])
     (Tracker.set_wg (Tracker.wg st + 1) st)).
Proof.
  intros Hc Hwg. cbv beta iota delta [bind get ret]. rewrite Hc.
  unfold Tracker.wg_Add, Tracker.go, modify.
  destruct (Tracker.wg st + 1 <? 0) eqn:Hneg; [apply Z.ltb_lt in Hneg; lia|].
  reflexivity.
Qed.

(** ** Not connected *)

Lemma never_connected_run acts :
  forallb (fun a => negb (is_connect a)) acts = true ->
  run acts Tracker.init_state = (Ret tt, Tracker.init_state).
Proof.
  induction acts as [|a acts IH]; intros H; [reflexivity|].
  simpl in H. apply andb_true_iff in H as [Ha H].
  simpl. unfold bind at 1.
  destruct a as [sn p|sn p|sentry_Init dsn|i ok]; simpl in Ha; try discriminate.
  - change (act (ARemoteWrite sn p) Tracker.init_state)
      with (Ret tt, Tracker.init_state). now apply IH.
  - change (act (AInternalWrite sn p) Tracker.init_state)
      with (Ret tt, Tracker.init_state). now apply IH.
  - assert (Hs : act (AStep i ok) Tracker.init_state = (Ret tt, Tracker.init_state)).
    { simpl. unfold Tracker.step. simpl. now destruct i. }
    rewrite Hs. now apply IH.
Qed.

(** C5.  While the backend is not connected a write to the remote sink
    does nothing and reports success: it returns [(0, nil)] at once --
    it neither blocks nor panics --, the world is unchanged (no capture,
    no flush), the counter is not incremented and no goroutine is
    started.  This holds for the sink of [logger.go] and for both
    revisions of the asynchronous sink; and a program that never calls
    [ConnectSentry] stays in the initial state whatever it writes. *)
Theorem disconnected_Write_is_noop level p w sn1 sn2 st :
  hub_client w = false ->
  Tracker.connected st = false ->
  snio_Write level p w = (Ret (0, None), w) /\
  Remote.Write sn1 p st = (Ret (0, None), st) /\
  Internal.Write sn2 p st = (Ret (0, None), st) /\
  (forall acts,
      forallb (fun a => negb (is_connect a)) acts = true ->
      run acts Tracker.init_state = (Ret tt, Tracker.init_state)).
Proof.
  intros Hw Hst. split; [|split; [|split]].
  - unfold snio_Write, bind, get, ret. now rewrite Hw.
  - unfold Remote.Write, bind, get, ret. now rewrite Hst.
  - unfold Internal.Write, bind, get, ret. now rewrite Hst.
  - exact never_connected_run.
Qed.

Lemma disconnected_Write_is_noop_witness :
  snio_Write LevelError "lost" (boot_world quiet_env) =
    (Ret (0, None), boot_world quiet_env) /\
  Internal.Write Internal.ErrorLog "lost" Tracker.init_state =
    (Ret (0, None), Tracker.init_state).
Proof.
  destruct (disconnected_Write_is_noop LevelError "lost" (boot_world quiet_env)
              Remote.ErrorLog Internal.ErrorLog Tracker.init_state eq_refl eq_refl)
    as [H1 [_ [H3 _]]].
  split; [exact H1|exact H3].
Defined.

(** ** The reported count *)

Lemma len_pos c rest : (0 =? len (String c rest)) = false.
Proof. apply Z.eqb_neq. unfold len. simpl String.length. lia. Qed.

(** C10.  The remote sink's [Write] returns count 0 and a nil error for
    every input and in every state: the sink of [logger.go] whether a
    client is bound or not, and both revisions of the asynchronous sink
    after any run (connected or not, deliveries pending, succeeded or
    failed).  So an [io.MultiWriter] that comes to the sink with a
    non-empty record reports [io.ErrShortWrite] and calls no writer after
    it. *)
Theorem snio_Write_reports_zero :
  (forall level p w, fst (snio_Write level p w) = Ret (0, None)) /\
  (forall acts sn p,
      fst ((run acts ;;; Remote.Write sn p) Tracker.init_state) = Ret (0, None)) /\
  (forall acts sn p,
      fst ((run acts ;;; Internal.Write sn p) Tracker.init_state) = Ret (0, None)) /\
  (forall level ws c rest w,
      multiWriter_Write (Snio level :: ws) (String c rest) w =
      (Ret (0, Some ErrShortWrite),
       add_events (call_events (hub_client w) (String c rest) (Snio level)) w)).
Proof.
  split; [|split; [|split]].
  - intros level p w. now rewrite (snio_Write_yields level p w).
  - intros acts sn p.
    destruct (run_inv acts Tracker.init_state init_state_inv) as [st [Hrun Hinv]].
    destruct (Remote_Write_inv sn p st Hinv) as [st' [Hw _]].
    unfold bind. now rewrite Hrun, Hw.
  - intros acts sn p.
    destruct (run_inv acts Tracker.init_state init_state_inv) as [st [Hrun Hinv]].
    destruct (Internal_Write_inv sn p st Hinv) as [st' [Hw _]].
    unfold bind. now rewrite Hrun, Hw.
  - intros level ws c rest w.
    assert (Hnn : Snio level <> nil_Writer) by discriminate.
    pose proof (Writer_Write_yields (Snio level) (String c rest) w Hnn) as Hy.
    unfold yields in Hy. cbn [multiWriter_Write]. unfold bind. rewrite Hy.
    pose proof (len_pos c rest) as Hlen.
    unfold write_result. cbv beta iota. now rewrite Hlen.
Qed.

(** ** The [Rinfo] helpers *)

(** [Rinfo] hands the same text to the local Info sink and to the
    backend. *)
Lemma Rinfo_sends_text_to_both :
  exists w t,
    Rinfo (fun _ => true) "n=5" (connected_app quiet_env) = (Ret tt, (w, t)) /\
    trace w =
      [ EvLock;
        EvWrite os_Stderr
          (initText ++ "INFO : 2016/02/01 10:00:00.000000 main.go:10: n=5" ++ newline);
        EvUnlock ] /\
    Tracker.deliveries t =
      [ Tracker.Captured LevelInfo "n=5" true; Tracker.Flushed flashTimeout ].
Proof.
  eexists. eexists. split; [vm_compute; reflexivity|]. split; vm_compute; reflexivity.
Qed.

(** The first revision of [Rinfof] formats and then calls [Rinfo]: both
    sides get the formatted text. *)
Lemma Rinfof_1_sends_formatted_text :
  exists w t,
    Rinfof_1 Fmt.Arg Fmt.Sprint Fmt.Sprintf Fmt.AStr (fun _ => true)
      "n=%d" [Fmt.AInt 5] (connected_app quiet_env) = (Ret tt, (w, t)) /\
    trace w =
      [ EvLock;
        EvWrite os_Stderr
          (initText ++ "INFO : 2016/02/01 10:00:00.000000 main.go:10: n=5" ++ newline);
        EvUnlock ] /\
    Tracker.deliveries t =
      [ Tracker.Captured LevelInfo "n=5" true; Tracker.Flushed flashTimeout ].
Proof.
  eexists. eexists. split; [vm_compute; reflexivity|]. split; vm_compute; reflexivity.
Qed.

(** C8.  The later revision of [Rinfof] logs the formatted text locally
    but passes the format string itself to [internal.Info]: on
    [Rinfof("n=%d", 5)] the local Info sink gets ["n=5"] and the backend
    gets ["n=%d"]. *)
Theorem Rinfof_sends_raw_format :
  Fmt.Sprintf "n=%d" [Fmt.AInt 5] = "n=5" /\
  exists w t,
    Rinfof Fmt.Arg Fmt.Sprintf (fun _ => true) "n=%d" [Fmt.AInt 5]
      (connected_app quiet_env) = (Ret tt, (w, t)) /\
    trace w =
      [ EvLock;
        EvWrite os_Stderr
          (initText ++ "INFO : 2016/02/01 10:00:00.000000 main.go:10: n=5" ++ newline);
        EvUnlock ] /\
    Tracker.deliveries t =
      [ Tracker.Captured LevelInfo "n=%d" true; Tracker.Flushed flashTimeout ].
Proof.
  split; [reflexivity|].
  eexists. eexists. split; [vm_compute; reflexivity|]. split; vm_compute; reflexivity.
Qed.

(** Whatever the formatter, the operands and the environment: the local
    Info sink gets a record with the formatted text, the backend gets the
    format string. *)
Lemma Rinfof_delivers_format Arg fmt_Sprintf oks a b e :
  exists w t,
    Rinfof Arg fmt_Sprintf oks a b (connected_app e) = (Ret tt, (w, t)) /\
    trace w =
      [ EvLock;
        EvWrite os_Stderr
          (log_record (infoLog bootstrap_logger) (env_header e [EvLock] flags 3)
             (fmt_Sprintf a b));
        EvUnlock ] /\
    Tracker.deliveries t =
      [ Tracker.Captured LevelInfo a (oks O); Tracker.Flushed flashTimeout ].
Proof.
  eexists. eexists. split; [reflexivity|]. split; reflexivity.
Qed.

(** A run with two writes, one of each revision, the second capture
    failing: the failed delivery still reaches its [Done]; the first one
    has a flush and its [Done] left, and the counter is 1. *)
Example interleaved_run :
  run [ AInternalWrite Internal.ErrorLog "a"; ARemoteWrite Remote.WarnLog "b";
        AStep 1 false; AStep 0 true; AStep 1 true ] connected_state =
  (Ret tt,
   {| Tracker.connected := true;
      Tracker.wg := 1;
      Tracker.goroutines :=
        [ {| Tracker.pending := [Tracker.IFlush flashTimeout; Tracker.IDone];
             Tracker.dones := 0 |};
          {| Tracker.pending := []; Tracker.dones := 1 |} ];
      Tracker.deliveries :=
        [ Tracker.Captured LevelWarning "b" false;
          Tracker.Captured LevelError "a" true ] |}).
Proof. reflexivity. Qed.


(* ================================================================== *)
(** * Further properties *)

(** ** [output]: edge cases and the shape of a call *)



(** X2.  A logging call at any of the four severities on a logger the
    package built returns normally with the lock released.  Between
    [Lock] and [Unlock] it hands one record, whose prefix ends in the tag
    of the severity, to the writers of that severity's sink, in order from
    the first one; it closes nothing and does not end the process. *)
Theorem output_writes_one_record l lg s depth txt w :
  nth_error (heap w) l = Some lg ->
  built lg ->
  lock_held w = false ->
  is_severity s ->
  exists evs k,
    Logger_output l s depth txt w =
      (Ret tt, add_events (EvLock :: evs ++ [EvUnlock]) w) /\
    (1 <= k)%nat /\
    write_calls evs =
      map (fun wr => EvWrite wr (output_record w lg s depth txt))
          (firstn k (writers_of (lg_out (sink_of lg s)))) /\
    (exists pre, lg_prefix (sink_of lg s) = pre ++ tag_of s) /\
    forallb (fun ev => is_Write_call ev || is_remote_event ev) evs = true.
Proof.
  intros Hl Hb Hfree Hs.
  pose proof (built_sink_no_nil lg s Hb Hs) as Hnn.
  exists (output_events w lg s depth txt),
         (reached (env w) (hub_client w) (trace w ++ [EvLock])
                  (writers_of (lg_out (sink_of lg s)))
                  (output_record w lg s depth txt)).
  split; [exact (Logger_output_yields l lg s depth txt w Hl Hfree Hs Hnn)|].
  split.
  { destruct (writers_of (lg_out (sink_of lg s))) as [|wr ws] eqn:Hws;
      [|apply reached_pos].
    destruct Hb as [|verbose logFile].
    - rewrite bootstrap_sink in Hws by assumption. discriminate.
    - rewrite Init_logger_writers in Hws by assumption.
      apply app_eq_nil in Hws as [_ Hws]. discriminate. }
  split; [apply write_calls_sink_events|].
  split; [exact (built_sink_tagged lg s Hb Hs)|].
  apply forallb_forall. intros ev Hev.
  apply In_sink_events in Hev as [wr [_ Hev]].
  destruct Hev as [ -> | [level [_ [_ [ -> | [_ ->] ]]]]]; reflexivity.
Qed.

Lemma output_writes_one_record_witness :
  exists evs k,
    Logger_output 1%nat sWarning 0 "x" (demo_world quiet_env true (UserWriter 0 true)) =
      (Ret tt, add_events (EvLock :: evs ++ [EvUnlock])
                 (demo_world quiet_env true (UserWriter 0 true))) /\
    (1 <= k)%nat.
Proof.
  destruct (output_writes_one_record 1%nat (Init_logger true (UserWriter 0 true))
              sWarning 0 "x" (demo_world quiet_env true (UserWriter 0 true)))
    as [evs [k [Hrun [Hk _]]]].
  - reflexivity.
  - constructor.
  - reflexivity.
  - unfold is_severity. auto.
  - exists evs, k. auto.
Defined.

(** X3.  Before [Init]: a logging call on the bootstrap logger writes
    exactly one record to standard error, whose prefix is the warning
    ["ERROR: Logging before logger.Init."], a newline and the tag of the
    severity; nothing goes to the backend, connected or not. *)
Theorem bootstrap_logs_to_stderr l s depth txt w :
  nth_error (heap w) l = Some bootstrap_logger ->
  lock_held w = false ->
  is_severity s ->
  Logger_output l s depth txt w =
    (Ret tt,
     add_events
       [ EvLock;
         EvWrite os_Stderr
           ((initText ++ tag_of s) ++
            env_header (env w) (trace w ++ [EvLock]) flags (3 + depth) ++
            txt ++ (if ends_with_newline txt then "" else newline));
         EvUnlock ] w).
Proof.
  intros Hl Hfree Hs.
  pose proof (Logger_output_yields l bootstrap_logger s depth txt w Hl Hfree Hs
                (built_sink_no_nil _ s built_bootstrap Hs)) as Hy.
  unfold yields in Hy. rewrite Hy. do 2 f_equal. f_equal.
  unfold output_events, output_record. rewrite bootstrap_sink by assumption.
  unfold sink_events. simpl writers_of.
  assert (Hone : forall e c h p, firstn (reached e c h [os_Stderr] p) [os_Stderr] = [os_Stderr]).
  { intros e c h p. simpl. destruct (env_write e h os_Stderr p) as [n [err|]];
      [reflexivity|]. destruct (n =? len p); reflexivity. }
  rewrite Hone. reflexivity.
Qed.

Lemma bootstrap_logs_to_stderr_witness :
  exists w',
    Logger_output O sError 0 "x" (set_client true (boot_world quiet_env)) = (Ret tt, w') /\
    trace w' =
      [ EvLock;
        EvWrite os_Stderr
          (initText ++ "ERROR: 2016/02/01 10:00:00.000000 main.go:10: x" ++ newline);
        EvUnlock ].
Proof.
  eexists. split.
  - apply (bootstrap_logs_to_stderr O sError 0 "x" (set_client true (boot_world quiet_env)));
      [reflexivity|reflexivity|unfold is_severity; auto].
  - reflexivity.
Defined.

(** ** Routing of the severities built by [Init] *)



(** X5.  With [verbose = false] and a nil [logFile] the only writer of
    every sink is the remote one: a logging call writes to no stream and
    no file, and when the backend is not connected the record is
    dropped. *)
Theorem quiet_logger_writes_nowhere l s depth txt w :
  nth_error (heap w) l = Some (Init_logger false nil_Writer) ->
  lock_held w = false ->
  is_severity s ->
  Logger_output l s depth txt w =
    (Ret tt,
     add_events
       (EvLock ::
        (EvWrite (Snio (sentry_level s))
           (output_record w (Init_logger false nil_Writer) s depth txt) ::
         snio_events (hub_client w) (sentry_level s)
           (output_record w (Init_logger false nil_Writer) s depth txt)) ++
        [EvUnlock]) w).
Proof.
  intros Hl Hfree Hs.
  pose proof (Init_output_yields l false nil_Writer s depth txt w Hl Hfree Hs) as Hy.
  unfold yields in Hy. rewrite Hy. do 3 f_equal.
  unfold output_events. rewrite Init_logger_writers by assumption.
  unfold sink_events, local_writers. cbn [app reached].
  rewrite firstn_cons, firstn_nil. cbn [flat_map call_events].
  now rewrite app_nil_r.
Qed.

Lemma quiet_logger_writes_nowhere_witness :
  exists w',
    Logger_output 1%nat sInfo 0 "x"
      (snd (Init "quiet" false false nil_Writer (boot_world quiet_env))) = (Ret tt, w') /\
    events_since 2 w' =
      [ EvLock;
        EvWrite sentryInfoLog ("INFO : 2016/02/01 10:00:00.000000 main.go:10: x" ++ newline);
        EvUnlock ].
Proof.
  eexists. split.
  - apply (quiet_logger_writes_nowhere 1%nat sInfo 0 "x"
             (snd (Init "quiet" false false nil_Writer (boot_world quiet_env))));
      [reflexivity|reflexivity|unfold is_severity; auto].
  - reflexivity.
Defined.

(** ** The error [log.Logger.Output] returns *)

Lemma length_append a b :
  String.length (a ++ b) = (String.length a + String.length b)%nat.
Proof. induction a as [|c a IH]; simpl; [reflexivity|now rewrite IH]. Qed.

(** A record is never empty. *)
Lemma log_record_nonempty l hdr s : (0 =? len (log_record l hdr s)) = false.
Proof.
  apply Z.eqb_neq. unfold len, log_record. rewrite !length_append.
  destruct s as [|c s]; simpl; lia.
Qed.

(** An [io.MultiWriter] that contains the remote sink returns an error
    for every non-empty record. *)
Lemma multiWriter_with_remote_sink_errs ws p : forall w,
  no_nil ws ->
  (exists level, In (Snio level) ws) ->
  (0 =? len p) = false ->
  exists n err w', multiWriter_Write ws p w = (Ret (n, Some err), w').
Proof.
  induction ws as [|wr ws IH]; intros w Hnn [level Hin] Hlen; [contradiction|].
  inversion Hnn as [|? ? Hwr Hws]; subst.
  pose proof (Writer_Write_yields wr p w Hwr) as Hy. unfold yields in Hy.
  cbn [multiWriter_Write]. unfold bind at 1. rewrite Hy.
  destruct (write_result (env w) (trace w) wr p) as [n [err|]] eqn:Hres.
  - eexists. eexists. eexists. reflexivity.
  - destruct (n =? len p) eqn:Hn.
    + apply IH; [assumption| |assumption].
      destruct Hin as [Heq|Hin]; [|eauto]. subst wr.
      simpl in Hres. injection Hres as <-. congruence.
    + eexists. eexists. eexists. reflexivity.
Qed.

(** X6.  On a logger built by [Init] every call of [log.Logger.Output]
    returns a non-nil error -- [io.ErrShortWrite] caused by the remote
    sink's count of 0, or the error of a writer before it --, which
    [output] drops. *)
Theorem Init_sink_Output_always_errs verbose logFile s calldepth txt w :
  is_severity s ->
  exists err w',
    log_Output (sink_of (Init_logger verbose logFile) s) calldepth txt w =
    (Ret (Some err), w').
Proof.
  intros Hs. unfold log_Output, bind, get.
  set (p := log_record _ _ _).
  assert (Hws : lg_out (sink_of (Init_logger verbose logFile) s) =
                OutMulti (local_writers verbose logFile s ++ [Snio (sentry_level s)])).
  { pose proof (Init_logger_writers verbose logFile s Hs) as H.
    rewrite Init_logger_sink in * by assumption. simpl in *. now rewrite H. }
  rewrite Hws. simpl Out_Write.
  destruct (multiWriter_with_remote_sink_errs
              (local_writers verbose logFile s ++ [Snio (sentry_level s)]) p w)
    as [n [err [w' Hrun]]].
  - rewrite <- (Init_logger_writers verbose logFile s Hs).
    apply built_sink_no_nil; [constructor|assumption].
  - exists (sentry_level s). apply in_or_app. right. now left.
  - apply log_record_nonempty.
  - exists err, w'. now rewrite Hrun.
Qed.

Lemma Init_sink_Output_always_errs_witness :
  log_Output (sink_of (Init_logger true (UserWriter 0 false)) sInfo) 3 "x"
    (demo_world quiet_env true (UserWriter 0 false)) =
  (Ret (Some ErrShortWrite),
   add_events
     (sink_events quiet_env true
        (trace (demo_world quiet_env true (UserWriter 0 false)))
        [UserWriter 0 false; os_Stdout; sentryInfoLog]
        ("INFO : 2016/02/01 10:00:00.000000 main.go:10: x" ++ newline))
     (demo_world quiet_env true (UserWriter 0 false))).
Proof.
  destruct (Init_sink_Output_always_errs true (UserWriter 0 false) sInfo 3 "x"
              (demo_world quiet_env true (UserWriter 0 false)))
    as [err [w' Hrun]].
  - unfold is_severity. auto.
  - reflexivity.
Defined.

(** ** The closers *)

Lemma Init_Close_events verbose logFile w :
  close_calls (Close_events w (Init_logger verbose logFile)) =
    EvClose sentryFatalLog :: (if is_Closer logFile then [EvClose logFile] else []) /\
  firstn 2 (Close_events w (Init_logger verbose logFile)) =
    [EvClose sentryFatalLog; EvFlush flashTimeout].
Proof.
  split.
  - rewrite close_calls_Close_events.
    destruct logFile as [| | |id [|]|level]; reflexivity.
  - unfold Close_events.
    destruct logFile as [| | |id [|]|level]; reflexivity.
Qed.

Lemma Init_Close_run l verbose logFile w :
  nth_error (heap w) l = Some (Init_logger verbose logFile) ->
  lock_held w = false ->
  Logger_Close l w =
    (Ret tt, add_events (EvLock :: Close_events w (Init_logger verbose logFile)
                           ++ [EvUnlock]) w).
Proof.
  intros Hl Hfree.
  apply Logger_Close_yields; try assumption.
  apply built_closers_no_nil. constructor.
Qed.

(** X7.  [Close] on a logger built by [Init] closes the remote sink first
    -- a flush of the backend bounded by 3 s -- and then the log file,
    exactly when the log file is a non-nil [io.Closer]; a log file that is
    not a closer is never closed, and [os.Stdout] passed as log file is. *)
Theorem Init_Close_closes_remote_then_logFile l verbose logFile w :
  nth_error (heap w) l = Some (Init_logger verbose logFile) ->
  lock_held w = false ->
  exists evs,
    Logger_Close l w = (Ret tt, add_events (EvLock :: evs ++ [EvUnlock]) w) /\
    close_calls evs =
      EvClose sentryFatalLog :: (if is_Closer logFile then [EvClose logFile] else []) /\
    firstn 2 evs = [EvClose sentryFatalLog; EvFlush flashTimeout].
Proof.
  intros Hl Hfree.
  exists (Close_events w (Init_logger verbose logFile)).
  split; [exact (Init_Close_run l verbose logFile w Hl Hfree)|].
  apply Init_Close_events.
Qed.

Lemma Init_Close_closes_remote_then_logFile_witness :
  exists evs,
    Logger_Close 1%nat (demo_world quiet_env false os_Stdout) =
      (Ret tt, add_events (EvLock :: evs ++ [EvUnlock])
                 (demo_world quiet_env false os_Stdout)) /\
    close_calls evs = [EvClose sentryFatalLog; EvClose os_Stdout].
Proof.
  destruct (Init_Close_closes_remote_then_logFile 1%nat false os_Stdout
              (demo_world quiet_env false os_Stdout) eq_refl eq_refl)
    as [evs [Hrun [Hcalls _]]].
  exists evs. split; [exact Hrun|exact Hcalls].
Defined.

(** ** The default logger in use *)

Lemma Init_calls_world e call rest :
  exists w',
    Init_calls (call :: rest) (boot_world e) =
      (Ret (seq 1 (List.length (call :: rest))), w') /\
    nth_error (heap w') (defaultLogger w') = Some (generated call) /\
    defaultLogger w' = 1%nat /\
    lock_held w' = false.
Proof.
  destruct (Init_calls_run (call :: rest) (boot_world e) bootstrap_logger eq_refl eq_refl)
    as [w' [Hrun [Hheap [Hdef Hfree]]]].
  exists w'. split; [exact Hrun|].
  simpl in Hdef. rewrite Hdef, Hheap. repeat split; assumption.
Qed.

(** X8.  The package function [Close()] closes the closers of the default
    logger only: after any number of [Init] calls these are the remote
    sink and the log file of the first call; the log files of later
    calls are not closed by it. *)
Theorem package_Close_closes_first_Init name verbose x logFile rest e :
  exists w evs,
    Init_calls ((name, verbose, x, logFile) :: rest) (boot_world e) =
      (Ret (seq 1 (S (List.length rest))), w) /\
    Close w = (Ret tt, add_events (EvLock :: evs ++ [EvUnlock]) w) /\
    close_calls evs =
      EvClose sentryFatalLog :: (if is_Closer logFile then [EvClose logFile] else []).
Proof.
  destruct (Init_calls_world e (name, verbose, x, logFile) rest)
    as [w [Hrun [Hd [_ Hfree]]]].
  exists w, (Close_events w (Init_logger verbose logFile)).
  split; [exact Hrun|]. split.
  - unfold Close, bind, get.
    exact (Init_Close_run (defaultLogger w) verbose logFile w Hd Hfree).
  - apply Init_Close_events.
Qed.

(** X9.  Before any [Init] the package function [Close()] closes nothing:
    on a default logger that is not initialized it only takes and
    releases the lock. *)
Theorem package_Close_before_Init w lg :
  nth_error (heap w) (defaultLogger w) = Some lg ->
  initialized lg = false ->
  lock_held w = false ->
  no_nil (closers lg) ->
  Close w = (Ret tt, add_events [EvLock; EvUnlock] w).
Proof.
  intros Hd Hi Hfree Hnn.
  pose proof (Logger_Close_yields (defaultLogger w) lg w Hd Hfree Hnn) as Hy.
  unfold yields in Hy. unfold Close, bind, get. rewrite Hy.
  unfold Close_events. now rewrite Hi.
Qed.

Lemma package_Close_before_Init_witness :
  Close (boot_world broken_env) =
  (Ret tt, add_events [EvLock; EvUnlock] (boot_world broken_env)).
Proof.
  apply (package_Close_before_Init (boot_world broken_env) bootstrap_logger);
    [reflexivity|reflexivity|reflexivity|constructor].
Defined.

Lemma built_generated call : built (generated call).
Proof. destruct call as [[[name verbose] x] logFile]. constructor. Qed.

Lemma default_logs_through lg s depth txt w :
  nth_error (heap w) (defaultLogger w) = Some lg ->
  built lg ->
  lock_held w = false ->
  is_severity s ->
  logs_through (d <- get defaultLogger ;; Logger_output d s depth txt) lg s depth txt w.
Proof.
  intros Hd Hb Hfree Hs.
  pose proof (built_sink_no_nil lg s Hb Hs) as Hnn.
  exists (output_events w lg s depth txt),
         (reached (env w) (hub_client w) (trace w ++ [EvLock])
                  (writers_of (lg_out (sink_of lg s)))
                  (output_record w lg s depth txt)).
  split.
  { unfold bind, get.
    exact (Logger_output_yields (defaultLogger w) lg s depth txt w Hd Hfree Hs Hnn). }
  split; [|apply write_calls_sink_events].
  destruct (writers_of (lg_out (sink_of lg s))) as [|wr ws] eqn:Hws;
    [|apply reached_pos].
  destruct Hb as [|verbose logFile].
  - rewrite bootstrap_sink in Hws by assumption. discriminate.
  - rewrite Init_logger_writers in Hws by assumption.
    apply app_eq_nil in Hws as [_ Hws]. discriminate.
Qed.

Section DefaultLogger.

Variable Arg : Type.
Variable fmt_Sprint : list Arg -> string.
Variable fmt_Sprintln : list Arg -> string.
Variable fmt_Sprintf : string -> list Arg -> string.

(** X10.  After any number of [Init] calls the twelve package functions
    [Info] ... [Errorf] log through the logger of the first call: each
    returns, and under the lock hands one record -- the text that
    [fmt.Sprint], [fmt.Sprintln] or [fmt.Sprintf] makes of its arguments,
    at its severity and depth -- to the writers of that logger's sink,
    whatever later [Init] calls were given. *)
Theorem package_calls_log_through_first_Init call rest e depth format v :
  exists w,
    Init_calls (call :: rest) (boot_world e) =
      (Ret (seq 1 (S (List.length rest))), w) /\
    let lg := generated call in
    logs_through (Info Arg fmt_Sprint v) lg sInfo 0 (fmt_Sprint v) w /\
    logs_through (InfoDepth Arg fmt_Sprint depth v) lg sInfo depth (fmt_Sprint v) w /\
    logs_through (Infoln Arg fmt_Sprintln v) lg sInfo 0 (fmt_Sprintln v) w /\
    logs_through (Infof Arg fmt_Sprintf format v) lg sInfo 0 (fmt_Sprintf format v) w /\
    logs_through (Warning Arg fmt_Sprint v) lg sWarning 0 (fmt_Sprint v) w /\
    logs_through (WarningDepth Arg fmt_Sprint depth v) lg sWarning depth (fmt_Sprint v) w /\
    logs_through (Warningln Arg fmt_Sprintln v) lg sWarning 0 (fmt_Sprintln v) w /\
    logs_through (Warningf Arg fmt_Sprintf format v) lg sWarning 0 (fmt_Sprintf format v) w /\
    logs_through (Error Arg fmt_Sprint v) lg sError 0 (fmt_Sprint v) w /\
    logs_through (ErrorDepth Arg fmt_Sprint depth v) lg sError depth (fmt_Sprint v) w /\
    logs_through (Errorln Arg fmt_Sprintln v) lg sError 0 (fmt_Sprintln v) w /\
    logs_through (Errorf Arg fmt_Sprintf format v) lg sError 0 (fmt_Sprintf format v) w.
Proof.
  destruct (Init_calls_world e call rest) as [w [Hrun [Hd [_ Hfree]]]].
  exists w. split; [exact Hrun|].
  pose proof (built_generated call) as Hb.
  cbv zeta.
  repeat split;
    apply default_logs_through; try assumption; unfold is_severity; auto.
Qed.

End DefaultLogger.

(** ** [SetFlags] *)

Lemma update_nth_twice {A} (x y : A) : forall l n,
  Tracker.update_nth n x (Tracker.update_nth n y l) = Tracker.update_nth n x l.
Proof.
  induction l as [|a l IH]; intros [|n]; simpl; try reflexivity.
  now rewrite IH.
Qed.

Lemma nth_error_update_nth_eq {A} (x : A) : forall l n a,
  nth_error l n = Some a -> nth_error (Tracker.update_nth n x l) n = Some x.
Proof.
  induction l as [|b l IH]; intros [|n] a H; simpl in *; try discriminate.
  - reflexivity.
  - eapply IH; eassumption.
Qed.

Lemma nth_error_update_nth_neq {A} (x : A) : forall l n m,
  n <> m -> nth_error (Tracker.update_nth n x l) m = nth_error l m.
Proof.
  induction l as [|b l IH]; intros [|n] [|m] H; simpl; try reflexivity.
  - contradiction.
  - apply IH. congruence.
Qed.

Lemma SetFlags_run flag w lg :
  nth_error (heap w) (defaultLogger w) = Some lg ->
  SetFlags flag w =
    (Ret tt, set_heap (Tracker.update_nth (defaultLogger w) (reflagged flag lg) (heap w)) w).
Proof.
  intros Hd. unfold SetFlags, bind, get, deref, store, modify.
  rewrite Hd. cbn [defaultLogger set_heap heap].
  rewrite (nth_error_update_nth_eq _ _ _ _ Hd).
  cbn [infoLog warningLog errorLog fatalLog closers initialized].
  unfold set_heap at 1 2. cbn [heap env hub_client lock_held defaultLogger trace].
  rewrite update_nth_twice. reflexivity.
Qed.

(** X11.  [SetFlags] sets the flags of the Info and Warning sinks of the
    default logger and nothing else: the Error and Fatal sinks keep their
    flags, every sink keeps its writers and its prefix, the closers and
    the initialized mark stay, no other logger changes, and no call is
    made -- [SetFlags] does not take the package lock, so it also runs
    while the lock is held. *)
Theorem SetFlags_sets_info_and_warning_only flag w lg :
  nth_error (heap w) (defaultLogger w) = Some lg ->
  exists w' lg',
    SetFlags flag w = (Ret tt, w') /\
    trace w' = trace w /\ lock_held w' = lock_held w /\
    defaultLogger w' = defaultLogger w /\
    nth_error (heap w') (defaultLogger w) = Some lg' /\
    lg_flag (infoLog lg') = flag /\ lg_flag (warningLog lg') = flag /\
    lg_flag (errorLog lg') = lg_flag (errorLog lg) /\
    lg_flag (fatalLog lg') = lg_flag (fatalLog lg) /\
    (forall s, lg_out (sink_of lg' s) = lg_out (sink_of lg s) /\
               lg_prefix (sink_of lg' s) = lg_prefix (sink_of lg s)) /\
    closers lg' = closers lg /\ initialized lg' = initialized lg /\
    (forall l, l <> defaultLogger w -> nth_error (heap w') l = nth_error (heap w) l).
Proof.
  intros Hd.
  exists (set_heap (Tracker.update_nth (defaultLogger w) (reflagged flag lg) (heap w)) w),
         (reflagged flag lg).
  split; [exact (SetFlags_run flag w lg Hd)|].
  do 3 (split; [reflexivity|]).
  split; [exact (nth_error_update_nth_eq _ _ _ _ Hd)|].
  do 4 (split; [reflexivity|]).
  split.
  { intros s. unfold sink_of.
    destruct (s =? sInfo); [split; reflexivity|].
    destruct (s =? sWarning); [split; reflexivity|].
    destruct (s =? sError); split; reflexivity. }
  do 2 (split; [reflexivity|]).
  intros l Hne. cbn [set_heap heap].
  apply nth_error_update_nth_neq. congruence.
Qed.

Lemma SetFlags_sets_info_and_warning_only_witness :
  exists w' lg',
    SetFlags 0 (demo_world quiet_env true nil_Writer) = (Ret tt, w') /\
    nth_error (heap w') 1%nat = Some lg' /\
    lg_flag (infoLog lg') = 0 /\ lg_flag (errorLog lg') = flags.
Proof.
  destruct (SetFlags_sets_info_and_warning_only 0 (demo_world quiet_env true nil_Writer)
              (Init_logger true nil_Writer) eq_refl)
    as [w' [lg' [Hrun [_ [_ [_ [Hcell [Hi [_ [He _]]]]]]]]]].
  exists w', lg'. repeat split; assumption.
Defined.

(** X12.  Flags set before the first [Init] are lost: [SetFlags] then
    changes the bootstrap logger, which the first [Init] replaces as
    default logger by one whose four sinks carry the flags
    [Ldate|Lmicroseconds|Lshortfile]. *)
Theorem SetFlags_before_Init_is_lost flag call rest e :
  exists w',
    (SetFlags flag ;;; Init_calls (call :: rest)) (boot_world e) =
      (Ret (seq 1 (S (List.length rest))), w') /\
    nth_error (heap w') (defaultLogger w') = Some (generated call) /\
    (forall s, lg_flag (sink_of (generated call) s) = flags).
Proof.
  pose proof (SetFlags_run flag (boot_world e) bootstrap_logger eq_refl) as Hset.
  set (w1 := set_heap (Tracker.update_nth (defaultLogger (boot_world e))
                         (reflagged flag bootstrap_logger) (heap (boot_world e)))
                      (boot_world e)) in Hset.
  destruct (Init_calls_run (call :: rest) w1 (reflagged flag bootstrap_logger)
              eq_refl eq_refl) as [w' [Hrun [Hheap [Hdef Hfree]]]].
  exists w'. split; [|split].
  - unfold bind. rewrite Hset. exact Hrun.
  - simpl in Hdef. rewrite Hdef, Hheap. reflexivity.
  - intros s. destruct call as [[[name verbose] x] logFile].
    unfold sink_of, generated, Init_logger, makeLog.
    cbn [infoLog warningLog errorLog fatalLog].
    destruct (s =? sInfo), (s =? sWarning), (s =? sError), verbose; reflexivity.
Qed.

(** X13.  [SetFlags] after [Init] acts on the logger the first [Init]
    returned -- the caller's pointer and the default logger are the same
    object -- and on no logger a later [Init] returned. *)
Theorem SetFlags_reaches_first_Init_only flag call rest e :
  exists w w' lg',
    Init_calls (call :: rest) (boot_world e) =
      (Ret (seq 1 (S (List.length rest))), w) /\
    SetFlags flag w = (Ret tt, w') /\
    nth_error (heap w') 1%nat = Some lg' /\
    lg_flag (infoLog lg') = flag /\ lg_flag (warningLog lg') = flag /\
    lg_flag (errorLog lg') = flags /\ lg_flag (fatalLog lg') = flags /\
    (forall i c, nth_error rest i = Some c ->
                 nth_error (heap w') (2 + i) = Some (generated c)).
Proof.
  destruct (Init_calls_run (call :: rest) (boot_world e) bootstrap_logger eq_refl eq_refl)
    as [w [Hrun [Hheap [Hdef Hfree]]]].
  simpl in Hdef.
  assert (Hd : nth_error (heap w) (defaultLogger w) = Some (generated call))
    by (rewrite Hdef, Hheap; reflexivity).
  exists w,
    (set_heap (Tracker.update_nth (defaultLogger w) (reflagged flag (generated call))
                 (heap w)) w),
    (reflagged flag (generated call)).
  split; [exact Hrun|].
  split; [exact (SetFlags_run flag w _ Hd)|].
  split.
  { cbn [set_heap heap]. rewrite <- Hdef.
    exact (nth_error_update_nth_eq _ _ _ _ Hd). }
  do 2 (split; [reflexivity|]).
  split; [destruct call as [[[name verbose] x] logFile]; now destruct verbose|].
  split; [destruct call as [[[name verbose] x] logFile]; now destruct verbose|].
  intros i c Hi. cbn [set_heap heap].
  rewrite nth_error_update_nth_neq by (rewrite Hdef; discriminate).
  rewrite Hheap. simpl. now apply map_nth_error.
Qed.

(** ** The asynchronous sinks: what a delivery does *)

Lemma In_update_nth {A} (y : A) : forall l i x,
  In x l -> In x (Tracker.update_nth i y l) \/ nth_error l i = Some x.
Proof.
  induction l as [|z l IH]; intros [|i] x H; simpl in *; try contradiction.
  - destruct H as [->|H]; auto.
  - destruct H as [->|H]; auto.
    destruct (IH i x H); auto.
Qed.

Lemma In_update_nth_new {A} (y : A) : forall l i x,
  nth_error l i = Some x -> In y (Tracker.update_nth i y l).
Proof.
  induction l as [|z l IH]; intros [|i] x H; simpl in *; try discriminate.
  - now left.
  - right. eapply IH; eassumption.
Qed.

(** A goroutine that is about to call [Done] finds the counter positive. *)
Lemma Done_has_counter st i g ins rest :
  tracker_inv st ->
  nth_error (Tracker.goroutines st) i = Some g ->
  Tracker.pending g = ins :: rest ->
  Tracker.is_Done ins = true ->
  1 <= Tracker.wg st.
Proof.
  intros [Hwg _] Hg Hp Hd.
  pose proof (owed_le_in_flight _ _ _ Hg) as Hle.
  unfold Tracker.owed at 1 in Hle. rewrite Hp in Hle. simpl in Hle.
  rewrite Hd in Hle. simpl in Hle.
  unfold Tracker.in_flight in Hwg. lia.
Qed.

(** The effect of a scheduler step on a goroutine that has a statement to
    run. *)
Lemma step_shape i ok st g ins rest :
  tracker_inv st ->
  nth_error (Tracker.goroutines st) i = Some g ->
  Tracker.pending g = ins :: rest ->
  exists st',
    Tracker.step i ok st = (Ret tt, st') /\
    Tracker.deliveries st' = (Tracker.deliveries st ++ delivered ins ok)%list /\
    Tracker.goroutines st' =
      Tracker.update_nth i
        {| Tracker.pending := rest;
           Tracker.dones := Tracker.dones g + (if Tracker.is_Done ins then 1 else 0) |}
        (Tracker.goroutines st).
Proof.
  intros Hinv Hg Hp. unfold Tracker.step. rewrite Hg, Hp.
  destruct ins as [level msg|timeout|].
  - eexists. split; [reflexivity|]. split; reflexivity.
  - eexists. split; [reflexivity|]. split; reflexivity.
  - pose proof (Done_has_counter st i g _ rest Hinv Hg Hp eq_refl) as Hpos.
    cbn [Tracker.exec_instr]. unfold Tracker.wg_Done, Tracker.wg_Add.
    destruct (Tracker.wg st + -1 <? 0) eqn:Hneg; [apply Z.ltb_lt in Hneg; lia|].
    eexists. split; [reflexivity|]. split; [|reflexivity].
    simpl. now rewrite app_nil_r.
Qed.

Lemma promised_more ins st st' more :
  Tracker.deliveries st' = (Tracker.deliveries st ++ more)%list ->
  (forall g, In g (Tracker.goroutines st) -> In g (Tracker.goroutines st')) ->
  promised ins st -> promised ins st'.
Proof.
  intros Hd Hg [[ok [d [Hdel Hin]]]|[g [Hin Hp]]].
  - left. exists ok, d. split; [assumption|]. rewrite Hd. apply in_or_app. now left.
  - right. exists g. auto.
Qed.

(** A scheduler step keeps a promise: the statement is run, or is still
    to run. *)
Lemma step_promised ins i ok st :
  Tracker.is_Done ins = false ->
  tracker_inv st ->
  promised ins st ->
  exists st',
    Tracker.step i ok st = (Ret tt, st') /\ promised ins st'.
Proof.
  intros Hnd Hinv Hprom.
  destruct (nth_error (Tracker.goroutines st) i) as [g|] eqn:Hg.
  2: { exists st. split; [|assumption]. unfold Tracker.step. now rewrite Hg. }
  destruct (Tracker.pending g) as [|ins0 rest] eqn:Hp.
  { exists st. split; [|assumption]. unfold Tracker.step. now rewrite Hg, Hp. }
  destruct (step_shape i ok st g ins0 rest Hinv Hg Hp) as [st' [Hrun [Hd Hgs]]].
  exists st'. split; [assumption|].
  destruct Hprom as [[ok0 [d [Hdel Hin]]]|[g0 [Hin Hp0]]].
  - left. exists ok0, d. split; [assumption|]. rewrite Hd. apply in_or_app. now left.
  - destruct (In_update_nth
                {| Tracker.pending := rest;
                   Tracker.dones := Tracker.dones g +
                                    (if Tracker.is_Done ins0 then 1 else 0) |}
                _ i g0 Hin) as [Hstay|Hsame].
    + right. exists g0. rewrite Hgs. auto.
    + rewrite Hg in Hsame. injection Hsame as <-. rewrite Hp in Hp0.
      destruct Hp0 as [->|Hrest].
      * left. rewrite Hd.
        destruct ins as [level msg|timeout|]; [| |discriminate].
        -- exists ok, (Tracker.Captured level msg ok).
           split; [reflexivity|]. apply in_or_app. right. now left.
        -- exists ok, (Tracker.Flushed timeout).
           split; [reflexivity|]. apply in_or_app. right. now left.
      * right. eexists. rewrite Hgs. split.
        -- eapply In_update_nth_new. exact Hg.
        -- exact Hrest.
Qed.

(** Every action of a run keeps the invariant, a connection and the
    promises, and only adds to what the backend has received. *)
Lemma act_keeps a st :
  tracker_inv st ->
  exists st',
    act a st = (Ret tt, st') /\
    tracker_inv st' /\
    (Tracker.connected st = true -> Tracker.connected st' = true) /\
    (exists more, Tracker.deliveries st' = (Tracker.deliveries st ++ more)%list) /\
    (forall ins, Tracker.is_Done ins = false -> promised ins st -> promised ins st').
Proof.
  intros Hinv.
  assert (Hwrite : forall body,
             List.length (filter Tracker.is_Done body) = 1%nat ->
             exists st',
               (c <- get Tracker.connected ;;
                (if c then Tracker.wg_Add 1 ;;; Tracker.go body else ret tt) ;;;
                ret (0, @None string)) st = (Ret (0, None), st') /\
               tracker_inv st' /\
               (Tracker.connected st = true -> Tracker.connected st' = true) /\
               (exists more,
                   Tracker.deliveries st' = (Tracker.deliveries st ++ more)%list) /\
               (forall ins, Tracker.is_Done ins = false ->
                            promised ins st -> promised ins st')).
  { intros body Hbody.
    destruct (async_Write_inv body st Hinv Hbody) as [st' [Hrun [Hinv' Hc]]].
    exists st'. split; [assumption|]. split; [assumption|].
    split; [congruence|].
    assert (Hshape : Tracker.deliveries st' = Tracker.deliveries st /\
                     forall g, In g (Tracker.goroutines st) ->
                               In g (Tracker.goroutines st')).
    { destruct (Tracker.connected st) eqn:Hcon.
      - rewrite connected_Write_starts_one in Hrun;
          [|assumption|destruct Hinv as [-> _]; lia].
        injection Hrun as <-. split; [reflexivity|].
        intros g Hg. simpl. apply in_or_app. now left.
      - cbv beta iota delta [bind get ret] in Hrun. rewrite Hcon in Hrun.
        injection Hrun as <-. auto. }
    destruct Hshape as [Hd Hg].
    split; [exists []; now rewrite app_nil_r|].
    intros ins _. apply (promised_more ins st st' []); [now rewrite app_nil_r|assumption]. }
  destruct a as [sn p|sn p|sentry_Init dsn|i ok].
  - destruct (Hwrite (Remote.Write_body sn p) eq_refl) as [st' [Hrun H]].
    exists st'. split; [|exact H].
    simpl. unfold bind at 1. unfold Remote.Write. now rewrite Hrun.
  - destruct (Hwrite (Internal.Write_body sn p) eq_refl) as [st' [Hrun H]].
    exists st'. split; [|exact H].
    simpl. unfold bind at 1. unfold Internal.Write. now rewrite Hrun.
  - simpl. unfold bind, Internal.ConnectSentry.
    destruct (sentry_Init dsn) as [err|].
    + exists st. split; [reflexivity|]. split; [assumption|]. split; [auto|].
      split; [exists []; now rewrite app_nil_r|auto].
    + exists (Tracker.set_connected true st). split; [reflexivity|].
      split; [split; apply Hinv|]. split; [reflexivity|].
      split; [exists []; simpl; now rewrite app_nil_r|].
      intros ins _. apply (promised_more ins st _ []); [simpl; now rewrite app_nil_r|auto].
  - destruct (step_inv i ok st Hinv) as [st' [Hrun [Hinv' [Hc _]]]].
    exists st'. split; [exact Hrun|]. split; [assumption|]. split; [congruence|].
    split.
    + destruct (nth_error (Tracker.goroutines st) i) as [g|] eqn:Hg.
      2: { unfold Tracker.step in Hrun. rewrite Hg in Hrun. injection Hrun as <-.
           exists []. now rewrite app_nil_r. }
      destruct (Tracker.pending g) as [|ins0 rest] eqn:Hp.
      { unfold Tracker.step in Hrun. rewrite Hg, Hp in Hrun. injection Hrun as <-.
        exists []. now rewrite app_nil_r. }
      destruct (step_shape i ok st g ins0 rest Hinv Hg Hp) as [st2 [Hrun2 [Hd _]]].
      rewrite Hrun2 in Hrun. injection Hrun as <-. eauto.
    + intros ins Hnd Hprom.
      destruct (step_promised ins i ok st Hnd Hinv Hprom) as [st2 [Hrun2 Hp2]].
      rewrite Hrun2 in Hrun. now injection Hrun as <-.
Qed.

Lemma run_keeps acts : forall st,
  tracker_inv st ->
  exists st',
    run acts st = (Ret tt, st') /\
    tracker_inv st' /\
    (Tracker.connected st = true -> Tracker.connected st' = true) /\
    (exists more, Tracker.deliveries st' = (Tracker.deliveries st ++ more)%list) /\
    (forall ins, Tracker.is_Done ins = false -> promised ins st -> promised ins st').
Proof.
  induction acts as [|a acts IH]; intros st Hinv.
  - exists st. split; [reflexivity|]. split; [assumption|]. split; [auto|].
    split; [exists []; now rewrite app_nil_r|auto].
  - destruct (act_keeps a st Hinv) as [st1 [Hrun1 [Hinv1 [Hc1 [[m1 Hd1] Hp1]]]]].
    destruct (IH st1 Hinv1) as [st' [Hrun' [Hinv' [Hc' [[m' Hd'] Hp']]]]].
    exists st'. split; [simpl; unfold bind; now rewrite Hrun1|].
    split; [assumption|]. split; [auto|].
    split; [exists (m1 ++ m')%list; now rewrite Hd', Hd1, app_assoc|auto].
Qed.

(** Left to run, the goroutines keep every promise. *)
Lemma drain_keeps oks : forall fuel st,
  tracker_inv st ->
  (Tracker.work st <= fuel)%nat ->
  exists st',
    Tracker.drain oks fuel st = (Ret tt, st') /\
    tracker_inv st' /\
    all_finished st' /\
    Tracker.wg st' = 0 /\
    Tracker.connected st' = Tracker.connected st /\
    (forall ins, Tracker.is_Done ins = false -> promised ins st ->
                 exists ok d, delivered ins ok = [d] /\ In d (Tracker.deliveries st')).
Proof.
  induction fuel as [|fuel IH]; intros st Hinv Hwork.
  - assert (Hfin : all_finished st)
      by (apply no_work_finished; unfold Tracker.work in Hwork; lia).
    exists st. split; [reflexivity|]. split; [assumption|]. split; [assumption|].
    split; [now apply all_finished_wg_zero|]. split; [reflexivity|].
    intros ins _ [H|[g [Hg Hp]]]; [assumption|].
    unfold all_finished in Hfin. rewrite Forall_forall in Hfin.
    rewrite (Hfin g Hg) in Hp. contradiction.
  - cbn [Tracker.drain]. unfold bind at 1. unfold get.
    destruct (Tracker.first_runnable (Tracker.goroutines st)) as [i|] eqn:Hfr.
    + destruct (first_runnable_Some _ _ Hfr) as [g [Hg Hne]].
      destruct (step_inv i (oks i) st Hinv) as [st1 [Hrun [Hinv1 [Hc1 [_ Hw1]]]]].
      specialize (Hw1 g Hg Hne).
      destruct (IH st1 Hinv1 ltac:(lia)) as [st' [Hrun' [Hinv' [Hfin [Hz [Hc' Hp']]]]]].
      exists st'. unfold bind. rewrite Hrun.
      split; [assumption|]. split; [assumption|]. split; [assumption|].
      split; [assumption|]. split; [congruence|].
      intros ins Hnd Hprom. apply Hp'; [assumption|].
      destruct (step_promised ins i (oks i) st Hnd Hinv Hprom) as [st2 [Hrun2 Hp2]].
      rewrite Hrun2 in Hrun. now injection Hrun as <-.
    + assert (Hfin : all_finished st) by now apply first_runnable_None.
      exists st. split; [reflexivity|]. split; [assumption|]. split; [assumption|].
      split; [now apply all_finished_wg_zero|]. split; [reflexivity|].
      intros ins _ [H|[g [Hg Hp]]]; [assumption|].
      unfold all_finished in Hfin. rewrite Forall_forall in Hfin.
      rewrite (Hfin g Hg) in Hp. contradiction.
Qed.

Lemma spawn_run body st :
  tracker_inv st ->
  List.length (filter Tracker.is_Done body) = 1%nat ->
  let st1 := Tracker.set_goroutines
               (Tracker.goroutines st ++ [{| Tracker.pending := body; Tracker.dones := 0 |}])
               (Tracker.set_wg (Tracker.wg st + 1) st) in
  Tracker.wg_Add 1 st = (Ret tt, Tracker.set_wg (Tracker.wg st + 1) st) /\
  Tracker.go body (Tracker.set_wg (Tracker.wg st + 1) st) = (Ret tt, st1) /\
  tracker_inv st1 /\
  (forall ins, In ins body -> promised ins st1).
Proof.
  intros Hinv Hbody st1.
  destruct (spawn_inv body st Hinv Hbody) as [st' [Hrun [Hinv' _]]].
  assert (Hadd : Tracker.wg_Add 1 st = (Ret tt, Tracker.set_wg (Tracker.wg st + 1) st)).
  { unfold Tracker.wg_Add. destruct Hinv as [Hwg _].
    destruct (Tracker.wg st + 1 <? 0) eqn:Hneg; [apply Z.ltb_lt in Hneg; lia|reflexivity]. }
  split; [exact Hadd|]. split; [reflexivity|].
  unfold bind in Hrun. rewrite Hadd in Hrun.
  change (Tracker.go body (Tracker.set_wg (Tracker.wg st + 1) st)) with (Ret tt, st1) in Hrun.
  injection Hrun as <-. split; [assumption|].
  intros ins Hin. right.
  exists {| Tracker.pending := body; Tracker.dones := 0 |}. split; [|exact Hin].
  subst st1. simpl. apply in_or_app. right. now left.
Qed.


(** X14.  Nothing resets the connection: from a connected state every
    run of the sinks -- writes, scheduler steps, further [ConnectSentry]
    calls that succeed or fail -- ends connected, and what the backend
    had received is still there, in order, before what the run added. *)
Theorem connected_is_never_reset acts st :
  tracker_inv st ->
  Tracker.connected st = true ->
  exists st' more,
    run acts st = (Ret tt, st') /\
    Tracker.connected st' = true /\
    Tracker.deliveries st' = (Tracker.deliveries st ++ more)%list.
Proof.
  intros Hinv Hc.
  destruct (run_keeps acts st Hinv) as [st' [Hrun [_ [Hc' [[more Hd] _]]]]].
  exists st', more. auto.
Qed.

Lemma connected_is_never_reset_witness :
  exists st' more,
    run [ AConnect (fun _ => Some "bad dsn") "x";
          AInternalWrite Internal.WarnLog "w"; AStep 0 true ] connected_state =
      (Ret tt, st') /\
    Tracker.connected st' = true /\
    Tracker.deliveries st' = (Tracker.deliveries connected_state ++ more)%list.
Proof.
  apply (connected_is_never_reset _ connected_state).
  - split; [reflexivity|constructor].
  - reflexivity.
Defined.

(** X15.  A [ConnectSentry] that fails returns the error of
    [sentry.Init] and changes nothing, in both revisions of the sink and
    in the wrapper of package [logger]; a package that was not connected
    stays so, and its next [Write] is still a no-op. *)
Theorem failed_ConnectSentry_changes_nothing sentry_Init dsn err w st sn p :
  sentry_Init dsn = Some err ->
  Tracker.connected st = false ->
  Remote.ConnectSentry sentry_Init dsn st = (Ret (Some err), st) /\
  Internal.ConnectSentry sentry_Init dsn st = (Ret (Some err), st) /\
  ConnectSentry sentry_Init dsn (w, st) = (Ret (Some err), (w, st)) /\
  (Internal.ConnectSentry sentry_Init dsn ;;; Internal.Write sn p) st =
    (Ret (0, None), st).
Proof.
  intros Herr Hc.
  unfold ConnectSentry, in_tracker, Remote.ConnectSentry, Internal.ConnectSentry,
    Internal.Write, bind, get, ret.
  cbn [fst snd]. rewrite Herr, Hc. repeat split.
Qed.

Lemma failed_ConnectSentry_changes_nothing_witness :
  ConnectSentry (fun _ => Some "invalid dsn") "x" (boot_world quiet_env, Tracker.init_state) =
    (Ret (Some "invalid dsn"), (boot_world quiet_env, Tracker.init_state)).
Proof.
  exact (proj1 (proj2 (proj2
    (failed_ConnectSentry_changes_nothing (fun _ => Some "invalid dsn") "x" "invalid dsn"
       (boot_world quiet_env) Tracker.init_state Internal.ErrorLog "p"
       eq_refl eq_refl)))).
Defined.

(** X16.  While connected, [Write] does not wait for the backend: in both
    revisions it returns [(0, nil)] with the counter one higher and one
    new goroutine that has run nothing yet -- the capture at the level of
    the sink (and, in the second revision, the flush) and the [Done] --
    the backend has received nothing new, and a [Wait()] at that point
    blocks. *)
Theorem connected_Write_returns_before_delivery sn1 sn2 p st :
  tracker_inv st ->
  Tracker.connected st = true ->
  (exists st',
     Remote.Write sn1 p st = (Ret (0, None), st') /\
     Tracker.wg st' = Tracker.wg st + 1 /\
     Tracker.goroutines st' =
       (Tracker.goroutines st ++
        [{| Tracker.pending :=
              [Tracker.ICapture (if Remote.isErrLog sn1 then LevelError else LevelWarning) p;
               Tracker.IDone];
            Tracker.dones := 0 |}])%list /\
     Tracker.deliveries st' = Tracker.deliveries st /\
     Internal.Wait st' = (Blocked, st')) /\
  (exists st',
     Internal.Write sn2 p st = (Ret (0, None), st') /\
     Tracker.wg st' = Tracker.wg st + 1 /\
     Tracker.goroutines st' =
       (Tracker.goroutines st ++
        [{| Tracker.pending :=
              [Tracker.ICapture (Internal.level sn2) p; Tracker.IFlush flashTimeout;
               Tracker.IDone];
            Tracker.dones := 0 |}])%list /\
     Tracker.deliveries st' = Tracker.deliveries st /\
     Internal.Wait st' = (Blocked, st')).
Proof.
  intros Hinv Hc.
  assert (Hwg : 0 <= Tracker.wg st) by (destruct Hinv as [-> _]; lia).
  assert (Hwait : forall gs,
             Internal.Wait (Tracker.set_goroutines gs (Tracker.set_wg (Tracker.wg st + 1) st)) =
             (Blocked, Tracker.set_goroutines gs (Tracker.set_wg (Tracker.wg st + 1) st))).
  { intros gs. unfold Internal.Wait, Tracker.wg_Wait. simpl.
    destruct (Tracker.wg st + 1 =? 0) eqn:Hz; [apply Z.eqb_eq in Hz; lia|reflexivity]. }
  split.
  - eexists. split.
    + unfold Remote.Write.
      exact (connected_Write_starts_one (Remote.Write_body sn1 p) st Hc Hwg).
    + repeat split. apply Hwait.
  - eexists. split.
    + unfold Internal.Write.
      exact (connected_Write_starts_one (Internal.Write_body sn2 p) st Hc Hwg).
    + repeat split. apply Hwait.
Qed.

Lemma connected_Write_returns_before_delivery_witness :
  exists st',
    Internal.Write Internal.ErrorLog "boom" connected_state = (Ret (0, None), st') /\
    Tracker.wg st' = 1 /\
    Tracker.deliveries st' = [] /\
    Internal.Wait st' = (Blocked, st').
Proof.
  destruct (connected_Write_returns_before_delivery Remote.ErrorLog Internal.ErrorLog
              "boom" connected_state)
    as [_ [st' [Hrun [Hwg [_ [Hd Hwait]]]]]].
  - split; [reflexivity|constructor].
  - reflexivity.
  - exists st'. auto.
Defined.



(** The connected branch of [internal.Info]. *)
Lemma Info_sync oks text st :
  tracker_inv st ->
  Tracker.connected st = true ->
  exists st',
    Internal.Info oks text st = (Ret tt, st') /\
    captured LevelInfo text st' /\
    In (Tracker.Flushed flashTimeout) (Tracker.deliveries st') /\
    Tracker.wg st' = 0 /\ all_finished st'.
Proof.
  intros Hinv Hc.
  destruct (spawn_run (Internal.Info_body text) st Hinv eq_refl)
    as [Hadd [Hgo [Hinv1 Hprom1]]].
  set (st1 := Tracker.set_goroutines
                (Tracker.goroutines st ++
                 [{| Tracker.pending := Internal.Info_body text; Tracker.dones := 0 |}])
                (Tracker.set_wg (Tracker.wg st + 1) st)) in *.
  destruct (drain_keeps oks (Tracker.work st1) st1 Hinv1 (le_n _))
    as [st' [Hrun' [_ [Hfin [Hz [_ Hprom']]]]]].
  exists st'. split.
  - unfold Internal.Info. unfold bind at 1. unfold get at 1. rewrite Hc.
    unfold bind at 1. rewrite Hadd. unfold bind at 1. rewrite Hgo.
    cbv beta iota delta [bind get]. rewrite Hrun'.
    unfold Internal.Wait, Tracker.wg_Wait. now rewrite Hz.
  - split; [|split; [|auto]].
    + destruct (Hprom' (Tracker.ICapture LevelInfo text) eq_refl)
        as [ok [d [Hd Hin]]]; [apply Hprom1; now left|].
      injection Hd as <-. now exists ok.
    + destruct (Hprom' (Tracker.IFlush flashTimeout) eq_refl)
        as [ok [d [Hd Hin]]]; [apply Hprom1; right; now left|].
      now injection Hd as <-.
Qed.

(** X18.  [internal.Info] is synchronous: while connected it returns only
    after its own delivery and every delivery started before it have run
    to their end -- the backend has the text at level Info and a flush,
    the counter is zero --; while not connected it returns at once and
    changes nothing. *)
Theorem Internal_Info_waits_for_delivery oks text st :
  tracker_inv st ->
  (Tracker.connected st = true ->
   exists st',
     Internal.Info oks text st = (Ret tt, st') /\
     captured LevelInfo text st' /\
     In (Tracker.Flushed flashTimeout) (Tracker.deliveries st') /\
     Tracker.wg st' = 0 /\ all_finished st') /\
  (Tracker.connected st = false -> Internal.Info oks text st = (Ret tt, st)).
Proof.
  intros Hinv. split.
  - intros Hc. exact (Info_sync oks text st Hinv Hc).
  - intros Hc. unfold Internal.Info, bind, get. now rewrite Hc.
Qed.

Lemma Internal_Info_waits_for_delivery_witness :
  exists st',
    Internal.Info (fun _ => false) "hello"
      (snd (Internal.Write Internal.ErrorLog "earlier" connected_state)) = (Ret tt, st') /\
    captured LevelInfo "hello" st' /\
    Tracker.wg st' = 0.
Proof.
  destruct (Internal_Info_waits_for_delivery (fun _ => false) "hello"
              (snd (Internal.Write Internal.ErrorLog "earlier" connected_state)))
    as [Hsync _].
  - split; [reflexivity|]. repeat constructor.
  - destruct (Hsync eq_refl) as [st' [Hrun [Hcap [_ [Hz _]]]]].
    exists st'. auto.
Defined.

(** ** The [Rinfo] helpers, in general *)

Lemma both_sides (m : M unit) oks lg local remote w st :
  logs_through m lg sInfo 0 local w ->
  tracker_inv st ->
  Tracker.connected st = true ->
  sends_both (in_logger m ;;; in_tracker (Internal.Info oks remote)) lg local remote (w, st).
Proof.
  intros [evs [k [Hrun [Hk Hcalls]]]] Hinv Hc.
  destruct (Info_sync oks remote st Hinv Hc) as [st' [Hinfo [Hcap [_ [Hz _]]]]].
  exists evs, k, st'. split.
  - unfold bind, in_logger, in_tracker. cbn [fst snd]. rewrite Hrun.
    cbn [fst snd]. now rewrite Hinfo.
  - auto.
Qed.

Section HelpersInGeneral.

Variable Arg : Type.
Variable fmt_Sprint : list Arg -> string.
Variable fmt_Sprintf : string -> list Arg -> string.
Variable arg_of_string : string -> Arg.
Variable oks : nat -> bool.

(** X19.  [Rinfo] sends one text to both sides: with the package
    connected and a default logger built by the package, it logs the text
    through the Info sink of the default logger and returns only when
    the backend has captured the same text at level Info.  The revision
    that calls [Info(a)] logs what [fmt.Sprint] makes of the text, and
    its [Rinfof] formats first and hands the formatted text to both
    sides. *)
Theorem Rinfo_sends_one_text_to_both a b w st lg :
  nth_error (heap w) (defaultLogger w) = Some lg ->
  built lg ->
  lock_held w = false ->
  tracker_inv st ->
  Tracker.connected st = true ->
  sends_both (Rinfo oks a) lg a a (w, st) /\
  sends_both (Rinfo_1 Arg fmt_Sprint arg_of_string oks a) lg
             (fmt_Sprint [arg_of_string a]) a (w, st) /\
  sends_both (Rinfof_1 Arg fmt_Sprint fmt_Sprintf arg_of_string oks a b) lg
             (fmt_Sprint [arg_of_string (fmt_Sprintf a b)]) (fmt_Sprintf a b) (w, st).
Proof.
  intros Hd Hb Hfree Hinv Hc.
  assert (Hs : is_severity sInfo) by (unfold is_severity; auto).
  split; [|split].
  - apply both_sides; try assumption. now apply default_logs_through.
  - apply both_sides; try assumption. now apply default_logs_through.
  - apply both_sides; try assumption. now apply default_logs_through.
Qed.

(** X20.  The later [Rinfof], on every format and operands and in every
    state: the Info sink of the default logger gets the formatted text,
    the backend captures the format string as it was passed. *)
Theorem Rinfof_sends_format_to_backend a b w st lg :
  nth_error (heap w) (defaultLogger w) = Some lg ->
  built lg ->
  lock_held w = false ->
  tracker_inv st ->
  Tracker.connected st = true ->
  sends_both (Rinfof Arg fmt_Sprintf oks a b) lg (fmt_Sprintf a b) a (w, st).
Proof.
  intros Hd Hb Hfree Hinv Hc.
  apply both_sides; try assumption.
  apply default_logs_through; try assumption. unfold is_severity. auto.
Qed.

End HelpersInGeneral.

Lemma Rinfo_sends_one_text_to_both_witness :
  sends_both (Rinfo (fun _ => true) "up") bootstrap_logger "up" "up"
             (connected_app quiet_env).
Proof.
  exact (proj1 (Rinfo_sends_one_text_to_both Fmt.Arg Fmt.Sprint Fmt.Sprintf Fmt.AStr
                  (fun _ => true) "up" [] (fst (connected_app quiet_env))
                  (snd (connected_app quiet_env)) bootstrap_logger
                  eq_refl (built_bootstrap) eq_refl
                  (conj eq_refl (Forall_nil _)) eq_refl)).
Defined.

Lemma Rinfof_sends_format_to_backend_witness :
  sends_both (Rinfof Fmt.Arg Fmt.Sprintf (fun _ => true) "%d%%" [Fmt.AInt 7])
             bootstrap_logger "7%" "%d%%" (connected_app quiet_env).
Proof.
  exact (Rinfof_sends_format_to_backend Fmt.Arg Fmt.Sprintf (fun _ => true)
           "%d%%" [Fmt.AInt 7] (fst (connected_app quiet_env))
           (snd (connected_app quiet_env)) bootstrap_logger
           eq_refl (built_bootstrap) eq_refl
           (conj eq_refl (Forall_nil _)) eq_refl).
Defined.

(** ** [Close] without a log file to close *)

(** X21.  When the log file is nil or is not an [io.Closer], [Close] on
    the logger [Init] built only flushes the backend: one [Close] of the
    remote sink with its flush, no write at all -- the remote sink's
    [Close] cannot fail, so no failure is reported on standard error,
    whatever the environment. *)
Theorem Close_without_closer_only_flushes l verbose logFile w :
  nth_error (heap w) l = Some (Init_logger verbose logFile) ->
  lock_held w = false ->
  is_Closer logFile = false ->
  Logger_Close l w =
    (Ret tt, add_events [EvLock; EvClose sentryFatalLog; EvFlush flashTimeout; EvUnlock] w).
Proof.
  intros Hl Hfree Hnc.
  rewrite (Init_Close_run l verbose logFile w Hl Hfree). do 2 f_equal.
  unfold Close_events.
  destruct logFile as [| | |id [|]|level]; try discriminate; reflexivity.
Qed.

Lemma Close_without_closer_only_flushes_witness :
  Logger_Close 1%nat (demo_world broken_env true (UserWriter 3 false)) =
    (Ret tt, add_events [EvLock; EvClose sentryFatalLog; EvFlush flashTimeout; EvUnlock]
               (demo_world broken_env true (UserWriter 3 false))).
Proof.
  apply (Close_without_closer_only_flushes 1%nat true (UserWriter 3 false)); reflexivity.
Defined.

(** ** The lock over a whole program *)

Lemma filter_none {A} (f : A -> bool) l :
  forallb (fun x => negb (f x)) l = true -> filter f l = [].
Proof.
  induction l as [|x l IH]; intros H; [reflexivity|].
  simpl in H. apply andb_true_iff in H as [Hx H]. simpl.
  destruct (f x); [discriminate|]. now apply IH.
Qed.

Lemma Close_events_no_lock w lg :
  forallb (fun ev => negb (is_lock_event ev)) (Close_events w lg) = true.
Proof.
  unfold Close_events. destruct (initialized lg); [|reflexivity].
  pose proof (closing_shape (env w) (closers lg) (trace w ++ [EvLock])) as H.
  rewrite forallb_forall in *. intros ev Hev. specialize (H ev Hev).
  destruct ev as [| |wr p|c|level msg|t|c]; try reflexivity; discriminate.
Qed.

Lemma op_run o w :
  lock_held w = false ->
  op_ok w o ->
  exists evs,
    op o w = (Ret tt, add_events (EvLock :: evs ++ [EvUnlock]) w) /\
    filter is_lock_event evs = [].
Proof.
  intros Hfree Hok. destruct o as [l s depth txt|l]; simpl in *.
  - destruct Hok as [Hs [lg [Hl Hb]]].
    exists (output_events w lg s depth txt). split.
    + apply Logger_output_yields; try assumption. now apply built_sink_no_nil.
    + apply filter_none. apply sink_events_no_lock.
  - destruct Hok as [lg [Hl Hb]].
    exists (Close_events w lg). split.
    + apply Logger_Close_yields; try assumption. now apply built_closers_no_nil.
    + apply filter_none. apply Close_events_no_lock.
Qed.

Lemma filter_lock_call evs :
  filter is_lock_event evs = [] ->
  filter is_lock_event (EvLock :: evs ++ [EvUnlock]) = [EvLock; EvUnlock].
Proof.
  intros H. simpl. rewrite filter_app, H. reflexivity.
Qed.

(** X22.  The package lock over a whole program: any sequence of logging
    and [Close] calls on loggers the package built returns -- no call
    panics or finds the lock taken by an earlier one -- and leaves the
    lock free, the loggers and the default logger as they were; the lock
    is taken and released once per call, never twice in a row. *)
Theorem calls_take_and_release_the_lock os : forall w,
  lock_held w = false ->
  Forall (op_ok w) os ->
  exists evs,
    ops os w = (Ret tt, add_events evs w) /\
    filter is_lock_event evs = List.concat (map (fun _ => [EvLock; EvUnlock]) os).
Proof.
  induction os as [|o os IH]; intros w Hfree Hok.
  - exists []. split; [|reflexivity]. simpl. now rewrite add_events_nil.
  - inversion Hok as [|? ? Ho Hos]; subst.
    destruct (op_run o w Hfree Ho) as [evs1 [Hrun1 Hf1]].
    destruct (IH (add_events (EvLock :: evs1 ++ [EvUnlock]) w) Hfree Hos)
      as [evs [Hrun Hf]].
    exists ((EvLock :: evs1 ++ [EvUnlock]) ++ evs)%list. split.
    + cbn [ops]. unfold bind. rewrite Hrun1, Hrun. now rewrite add_events_app.
    + rewrite filter_app, (filter_lock_call evs1 Hf1), Hf. reflexivity.
Qed.

Lemma calls_take_and_release_the_lock_witness :
  exists evs,
    ops [OpOutput 1%nat sError 0 "a"; OpClose 1%nat; OpOutput 0%nat sInfo 2 "b"]
        (demo_world broken_env true os_Stdout) =
      (Ret tt, add_events evs (demo_world broken_env true os_Stdout)) /\
    filter is_lock_event evs = [EvLock; EvUnlock; EvLock; EvUnlock; EvLock; EvUnlock].
Proof.
  apply (calls_take_and_release_the_lock
           [OpOutput 1%nat sError 0 "a"; OpClose 1%nat; OpOutput 0%nat sInfo 2 "b"]
           (demo_world broken_env true os_Stdout)).
  - reflexivity.
  - constructor; [|constructor; [|constructor; [|constructor]]].
    + split; [unfold is_severity; auto|].
      exists (Init_logger true os_Stdout). split; [reflexivity|constructor].
    + exists (Init_logger true os_Stdout). split; [reflexivity|constructor].
    + split; [unfold is_severity; auto|].
      exists bootstrap_logger. split; [reflexivity|constructor].
Defined.

(** ** The pointers [Init] returns *)

Lemma ptr_logs_through l lg s depth txt w :
  nth_error (heap w) l = Some lg ->
  built lg ->
  lock_held w = false ->
  is_severity s ->
  logs_through (Logger_output l s depth txt) lg s depth txt w.
Proof.
  intros Hl Hb Hfree Hs.
  pose proof (built_sink_no_nil lg s Hb Hs) as Hnn.
  exists (output_events w lg s depth txt),
         (reached (env w) (hub_client w) (trace w ++ [EvLock])
                  (writers_of (lg_out (sink_of lg s)))
                  (output_record w lg s depth txt)).
  split; [exact (Logger_output_yields l lg s depth txt w Hl Hfree Hs Hnn)|].
  split; [|apply write_calls_sink_events].
  destruct (writers_of (lg_out (sink_of lg s))) as [|wr ws] eqn:Hws;
    [|apply reached_pos].
  destruct Hb as [|verbose logFile].
  - rewrite bootstrap_sink in Hws by assumption. discriminate.
  - rewrite Init_logger_writers in Hws by assumption.
    apply app_eq_nil in Hws as [_ Hws]. discriminate.
Qed.

Section Methods.

Variable Arg : Type.
Variable fmt_Sprint : list Arg -> string.
Variable fmt_Sprintln : list Arg -> string.
Variable fmt_Sprintf : string -> list Arg -> string.

(** X23.  Every pointer [Init] returns logs through the logger that call
    built, default or not: after the calls [calls], the twelve methods
    [Info] ... [Errorf] on the pointer of the [i]-th call hand their
    record to the writers that call's [verbose] and [logFile] selected,
    and [Close] on it closes the remote sink and then that call's log
    file. *)
Theorem Init_pointer_uses_its_own_logger calls i name verbose x logFile e depth format v :
  nth_error calls i = Some (name, verbose, x, logFile) ->
  exists w evs,
    Init_calls calls (boot_world e) = (Ret (seq 1 (List.length calls)), w) /\
    let l := S i in
    let lg := Init_logger verbose logFile in
    logs_through (Logger_Info Arg fmt_Sprint l v) lg sInfo 0 (fmt_Sprint v) w /\
    logs_through (Logger_InfoDepth Arg fmt_Sprint l depth v) lg sInfo depth (fmt_Sprint v) w /\
    logs_through (Logger_Infoln Arg fmt_Sprintln l v) lg sInfo 0 (fmt_Sprintln v) w /\
    logs_through (Logger_Infof Arg fmt_Sprintf l format v) lg sInfo 0 (fmt_Sprintf format v) w /\
    logs_through (Logger_Warning Arg fmt_Sprint l v) lg sWarning 0 (fmt_Sprint v) w /\
    logs_through (Logger_WarningDepth Arg fmt_Sprint l depth v) lg sWarning depth
                 (fmt_Sprint v) w /\
    logs_through (Logger_Warningln Arg fmt_Sprintln l v) lg sWarning 0 (fmt_Sprintln v) w /\
    logs_through (Logger_Warningf Arg fmt_Sprintf l format v) lg sWarning 0
                 (fmt_Sprintf format v) w /\
    logs_through (Logger_Error Arg fmt_Sprint l v) lg sError 0 (fmt_Sprint v) w /\
    logs_through (Logger_ErrorDepth Arg fmt_Sprint l depth v) lg sError depth
                 (fmt_Sprint v) w /\
    logs_through (Logger_Errorln Arg fmt_Sprintln l v) lg sError 0 (fmt_Sprintln v) w /\
    logs_through (Logger_Errorf Arg fmt_Sprintf l format v) lg sError 0
                 (fmt_Sprintf format v) w /\
    Logger_Close l w = (Ret tt, add_events (EvLock :: evs ++ [EvUnlock]) w) /\
    close_calls evs =
      EvClose sentryFatalLog :: (if is_Closer logFile then [EvClose logFile] else []).
Proof.
  intros Hi.
  destruct (Init_calls_run calls (boot_world e) bootstrap_logger eq_refl eq_refl)
    as [w [Hrun [Hheap [_ Hfree]]]].
  assert (Hl : nth_error (heap w) (S i) = Some (Init_logger verbose logFile)).
  { rewrite Hheap. simpl.
    change (Init_logger verbose logFile) with (generated (name, verbose, x, logFile)).
    now apply map_nth_error. }
  exists w, (Close_events w (Init_logger verbose logFile)).
  split; [exact Hrun|]. cbv zeta.
  pose proof (built_Init verbose logFile) as Hb.
  do 12 (split; [apply ptr_logs_through; try assumption; unfold is_severity; auto|]).
  split; [exact (Init_Close_run _ verbose logFile w Hl Hfree)|].
  apply Init_Close_events.
Qed.

End Methods.

Lemma Init_pointer_uses_its_own_logger_witness :
  exists w,
    Init_calls [("a", false, false, nil_Writer); ("b", true, false, UserWriter 1 true)]
      (boot_world quiet_env) = (Ret [1%nat; 2%nat], w) /\
    logs_through (Logger_Info Fmt.Arg Fmt.Sprint 2%nat [Fmt.AStr "hi"])
      (Init_logger true (UserWriter 1 true)) sInfo 0 "hi" w.
Proof.
  destruct (Init_pointer_uses_its_own_logger Fmt.Arg Fmt.Sprint Fmt.Sprintln Fmt.Sprintf
              [("a", false, false, nil_Writer); ("b", true, false, UserWriter 1 true)]
              1%nat "b" true false (UserWriter 1 true) quiet_env 0 "" [Fmt.AStr "hi"]
              eq_refl)
    as [w [evs [Hrun [Hinfo _]]]].
  exists w. split; [exact Hrun|exact Hinfo].
Defined.
